(** * The Ngram kernel of onnxruntime/contrib_ops/cpu/ngram.cc

    A shallow embedding of the n-gram dictionary construction
    ([Ngram::Ngram]), of the skip-gram extractor ([Ngram::ComputeImpl]),
    of the output encoder ([Ngram::OutputResult]) and of the type
    dispatch ([Ngram::Compute]), followed by the properties of the
    kernel's specification that were checked against them.

    Conventions.
    - [int64_t] attributes and tokens are integers of [Z]; [size_t]
      values obtained from them go through [to_size_t] (reduction modulo
      2^64), [uint32_t] counters wrap modulo 2^32.
    - [float] is IEEE binary32, computed with the Standard Library's
      [SpecFloat] at precision 24 and exponent bound 128.
    - [ONNXRUNTIME_ENFORCE] throws, [assert] aborts: both end the
      computation, with [Fail (EnforceFailed _)] and
      [Fail (AssertFailed _)].
    - An iterator into a vector is the suffix of the list that starts at
      its position; a pointer into the input buffer is an offset.
    - The loop counters and the offsets of [ComputeImpl] are computed in
      [Z]. They are the [int], [int64_t] and pointer values of the source
      as long as none of these overflows, which [offset_in_range] bounds;
      the statements about the windows that the loops read carry this
      bound. *)

From Stdlib Require Import ZArith String List Bool Lia DecimalString.
From Stdlib Require Import Floats.SpecFloat.
From stdpp Require Import base list.

Import ListNotations.
Local Open Scope string_scope.
Local Open Scope list_scope.
Local Open Scope Z_scope.

(* ===================================================================== *)
(** ** Outcomes of the kernel's code *)
(* ===================================================================== *)

Inductive failure : Type :=
| EnforceFailed (msg : string)  (* ONNXRUNTIME_ENFORCE(cond, msg) with cond false *)
| AssertFailed (msg : string)   (* assert(cond) with cond false *)
| BadRead                       (* a read outside the buffer it addresses *)
| OutOfFuel.                    (* a loop of the model ran out of steps *)

Inductive res (A : Type) : Type :=
| Ok (a : A)
| Fail (f : failure).

Arguments Ok {A} a.
Arguments Fail {A} f.

Definition bind {A B : Type} (m : res A) (k : A -> res B) : res B :=
  match m with
  | Ok a => k a
  | Fail f => Fail f
  end.

Notation "'do' x <- m ; k" := (bind m (fun x => k))
  (at level 10, x name, m at level 100, k at level 200).

Definition ENFORCE (cond : bool) (msg : string) : res unit :=
  if cond then Ok tt else Fail (EnforceFailed msg).

Definition ASSERT (cond : bool) (msg : string) : res unit :=
  if cond then Ok tt else Fail (AssertFailed msg).

Definition is_ok {A : Type} (m : res A) : bool :=
  match m with Ok _ => true | Fail _ => false end.

(** [std::to_string] of a [size_t]. *)
Definition to_string (n : nat) : string :=
  NilZero.string_of_uint (Nat.to_uint n).

(** [size_t] is 64 bits wide: the conversion of an [int64_t]. *)
Definition to_size_t (z : Z) : Z := z mod 2 ^ 64.

(** [++f] on a [uint32_t]. *)
Definition uint32_incr (f : Z) : Z := (f + 1) mod 2 ^ 32.

(** The implicit conversion of an [int32_t] token to [int64_t]: the
    signed value of its 32 bits. *)
Definition int32_to_int64 (x : Z) : Z := (x + 2 ^ 31) mod 2 ^ 32 - 2 ^ 31.


(* ===================================================================== *)
(** ** binary32 *)
(* ===================================================================== *)

Definition float : Type := spec_float.

Definition f32_prec : Z := 24.
Definition f32_emax : Z := 128.

(** [static_cast<float>(f)] of an unsigned integer: round to nearest even. *)
Definition float_of_uint32 (f : Z) : float :=
  binary_normalize f32_prec f32_emax f 0 false.

Definition float_mul (x y : float) : float := SFmul f32_prec f32_emax x y.

Definition float_zero : float := S754_zero false.
Definition float_one : float := S754_finite false 8388608 (-23).
Definition float_two : float := S754_finite false 8388608 (-22).

(* ===================================================================== *)
(** ** Token keys: [NGramItem<T>] *)
(* ===================================================================== *)

Module ngram_details.

Record NGramItem (T : Type) : Type := mkNGramItem {
  id_ : nat;          (* NgramElementBase::id_, the id in the pool *)
  items_ : list T
}.

Arguments mkNGramItem {T} id_ items_.
Arguments id_ {T} _.
Arguments items_ {T} _.

(** The sample built by [ComputeImpl]: [NGramItem()], [Clear], [AddItem]. *)
Definition sample_empty {T : Type} : NGramItem T := mkNGramItem 0%nat [].

Definition Clear {T : Type} (s : NGramItem T) : NGramItem T :=
  mkNGramItem (id_ s) [].

Definition AddItem {T : Type} (s : NGramItem T) (t : T) : NGramItem T :=
  mkNGramItem (id_ s) (items_ s ++ [t]).

(** [std::equal(first1, last1, first2, last2, eq)]. *)
Fixpoint std_equal {T : Type} (eq : T -> T -> bool) (a b : list T) : bool :=
  match a, b with
  | [], [] => true
  | x :: a', y :: b' => eq x y && std_equal eq a' b'
  | _, _ => false
  end.

(** [NGramItem<int64_t>::operator==]: [items_ == o.items_] on vectors. *)
Definition int_item_eq (a o : NGramItem Z) : bool :=
  (length (items_ a) =? length (items_ o))%nat
  && std_equal Z.eqb (items_ a) (items_ o).

(** [NGramItem<std::string>::operator==]. *)
Definition str_item_eq (a o : NGramItem string) : bool :=
  if (length (items_ a) =? length (items_ o))%nat
  then std_equal String.eqb (items_ a) (items_ o)
  else false.

Section Hash.
Context {T : Type}.
(** [std::hash<T>], which the C++ standard leaves to the library. *)
Variable hf : T -> Z.

Definition hash_step (hash : Z) (t : T) : Z :=
  Z.lxor hash
    (to_size_t (hf t + 0x9e3779b9 + Z.shiftl hash 6 + Z.shiftr hash 2)).

(** [NGramItem<T>::hash]. *)
Definition hash (a : NGramItem T) : Z :=
  match items_ a with
  | [] => 0
  | first :: rest => fold_left hash_step rest (to_size_t (hf first))
  end.
End Hash.

(** *** [std::unordered_set<NGramItem<T>>]

    The elements in insertion order. What the set holds and what [find]
    returns depend on [operator==] alone: the hash only selects a bucket,
    and equal items have equal hashes ([hash_respects_eq] below). *)
Section PoolSet.
Context {T : Type}.
Variable item_eq : NGramItem T -> NGramItem T -> bool.

Definition PoolSet : Type := list (NGramItem T).

(** [c.find(i)]: the stored element equal to [i], [None] for [c.end()]. *)
Fixpoint set_find (c : PoolSet) (i : NGramItem T) : option (NGramItem T) :=
  match c with
  | [] => None
  | e :: c' => if item_eq e i then Some e else set_find c' i
  end.

(** [c.emplace(...)]: no insertion when an equal element is stored. *)
Definition set_emplace (c : PoolSet) (e : NGramItem T) : PoolSet :=
  match set_find c e with
  | Some _ => c
  | None => c ++ [e]
  end.

(** [Emplace(first, ngrams, ngram_size, ngram_id, c)]; returns the
    updated [ngram_id] and container. The range
    [first, first + ngram_size) is the prefix [take ngram_size first];
    the [assert(!items_.empty())] of the item's constructor and a read
    past the end of the pool are not represented here: [Ngram] calls
    [Emplace] with [ngram_size >= 1] and with chunks that its checks
    have placed inside the pool. *)
Fixpoint Emplace (first : list T) (ngrams : nat) (ngram_size : nat)
    (ngram_id : nat) (c : PoolSet) : nat * PoolSet :=
  match ngrams with
  | O => (ngram_id, c)
  | S ngrams' =>
      let c' := set_emplace c (mkNGramItem ngram_id (take ngram_size first)) in
      Emplace (drop ngram_size first) ngrams' ngram_size (S ngram_id) c'
  end.
End PoolSet.

Definition IntegerPoolSet : Type := list (NGramItem Z).
Definition StringPoolSet : Type := list (NGramItem string).

End ngram_details.

Import ngram_details.

(* ===================================================================== *)
(** ** Configuration and kernel state *)
(* ===================================================================== *)

Inductive Mode : Type := kNone | kTF | kIDF | kTFIDF.

Definition Mode_eqb (a b : Mode) : bool :=
  match a, b with
  | kNone, kNone | kTF, kTF | kIDF, kIDF | kTFIDF, kTFIDF => true
  | _, _ => false
  end.

(** The attributes of the node, as [OpKernelInfo::GetAttr(s)] sees them:
    [None] is an attribute that is not there (the status is not OK). *)
Record OpKernelInfo : Type := mkInfo {
  attr_mode : option string;
  attr_M : option Z;
  attr_N : option Z;
  attr_S : option Z;
  attr_all : option Z;
  attr_ngram_counts : option (list Z);
  attr_ngram_indexes : option (list Z);
  attr_weights : option (list float);
  attr_pool_strings : option (list string);
  attr_pool_int64s : option (list Z)
}.

(** [status = info.GetAttr(name, &target)]: whether the status is OK, and
    the target afterwards (left as it was when the attribute is absent). *)
Definition GetAttr {A : Type} (a : option A) (target : A) : bool * A :=
  match a with
  | Some v => (true, v)
  | None => (false, target)
  end.

(** [Ngram::Impl]. *)
Record Impl : Type := mkImpl {
  mode_ : Mode;
  N_ : Z;
  M_ : Z;
  S_ : Z;
  all_ : bool;
  ngram_counts_ : list Z;
  ngram_indexes_ : list Z;
  weights_ : list float;
  pool_strings_ : list string;
  str_set_ : StringPoolSet;
  int_set_ : IntegerPoolSet
}.

Definition is_empty {A : Type} (l : list A) : bool :=
  match l with [] => true | _ => false end.

Definition size {A : Type} (l : list A) : Z := Z.of_nat (length l).

(* ===================================================================== *)
(** ** [Ngram::Ngram]: validation and dictionary construction *)
(* ===================================================================== *)

(** The locals and members the pool loop updates. *)
Record build_state : Type := mkBuild {
  b_ngram_id : nat;
  b_ngram_size : nat;
  b_int_set : IntegerPoolSet;
  b_str_set : StringPoolSet
}.

Section Build.
Variable ngram_counts : list Z.
Variable pool_strings : list string.
Variable pool_int64s : list Z.

Definition pool_total_items : Z :=
  if is_empty pool_strings then size pool_int64s else size pool_strings.

(** The body of [for (size_t i = 0; i < ngram_counts_.size(); ++i)]. *)
Definition build_step (i : nat) (st : build_state) : res build_state :=
  let total_items := pool_total_items in
  let ngram_size := b_ngram_size st in
  match ngram_counts !! i with
  | None => Fail BadRead
  | Some c =>
    let start_idx := to_size_t c in
    let end_idx :=
      match ngram_counts !! S i with
      | Some c' => to_size_t c'
      | None => total_items
      end in
    do _ <- ENFORCE ((end_idx >=? start_idx) && (end_idx <=? total_items))
              ("n-gram counts out of bounds for " ++ to_string ngram_size
               ++ "-grams")%string;
    let items := end_idx - start_idx in
    if items >? 0 then
      do _ <- ENFORCE (items mod Z.of_nat ngram_size =? 0)
                ("Number of items must compose whole "
                 ++ to_string ngram_size ++ "-grams")%string;
      let ngrams := Z.to_nat (items / Z.of_nat ngram_size) in
      if is_empty pool_strings then
        let before_insert := length (b_int_set st) in
        let '(ngram_id, int_set) :=
          Emplace int_item_eq (drop (Z.to_nat start_idx) pool_int64s)
            ngrams ngram_size (b_ngram_id st) (b_int_set st) in
        do _ <- ENFORCE (before_insert + ngrams =? length int_set)%nat
                  ("pool_int64s duplicate " ++ to_string ngram_size
                   ++ "-grams detected")%string;
        Ok (mkBuild ngram_id (S ngram_size) int_set (b_str_set st))
      else
        let before_insert := length (b_str_set st) in
        let '(ngram_id, str_set) :=
          Emplace str_item_eq (drop (Z.to_nat start_idx) pool_strings)
            ngrams ngram_size (b_ngram_id st) (b_str_set st) in
        do _ <- ENFORCE (before_insert + ngrams =? length str_set)%nat
                  ("poll_strings duplicate " ++ to_string ngram_size
                   ++ "-grams detected")%string;
        Ok (mkBuild ngram_id (S ngram_size) (b_int_set st) str_set)
    else
      Ok (mkBuild (b_ngram_id st) (S ngram_size) (b_int_set st) (b_str_set st))
  end.

(** The loop from index [i] on, [remaining] iterations to go. *)
Fixpoint build_from (remaining : nat) (i : nat) (st : build_state)
    : res build_state :=
  match remaining with
  | O => Ok st
  | S remaining' =>
      do st' <- build_step i st;
      build_from remaining' (S i) st'
  end.

Definition build_loop : res build_state :=
  build_from (length ngram_counts) 0%nat (mkBuild 0%nat 1%nat [] []).
End Build.

Definition mode_of_string (mode : string) : Mode :=
  if String.eqb mode "TF" then kTF
  else if String.eqb mode "IDF" then kIDF
  else if String.eqb mode "TFIDF" then kTFIDF
  else kNone.

Definition Ngram (info : OpKernelInfo) : res Impl :=
  let '(status, mode) := GetAttr (attr_mode info) "" in
  do _ <- ENFORCE status "mode is required";
  let mode_ := mode_of_string mode in
  do _ <- ENFORCE (negb (Mode_eqb mode_ kNone)) "Unrecognized mode";
  let '(status, M_) := GetAttr (attr_M info) 0 in
  do _ <- ENFORCE (status && (M_ >? 0)) "Positive Attr M is required";
  let '(status, N_) := GetAttr (attr_N info) 0 in
  do _ <- ENFORCE (status && (N_ >=? M_)) "Positive M >= N is required";
  let '(status, S_) := GetAttr (attr_S info) 0 in
  do _ <- ENFORCE (status && (N_ >=? 0))
            "Non-negative number of skips S is required";
  let '(status, all) := GetAttr (attr_all info) 0 in
  do _ <- ENFORCE status "Attribute all is required";
  let all_ := negb (all =? 0) in
  let '(status, ngram_counts_) := GetAttr (attr_ngram_counts info) [] in
  do _ <- ENFORCE (status && negb (is_empty ngram_counts_))
            "Non-empty ngram_counts is required";
  let '(status, ngram_indexes_) := GetAttr (attr_ngram_indexes info) [] in
  do _ <- ENFORCE (status && negb (is_empty ngram_indexes_))
            "Non-empty ngram_indexes is required";
  let '(status, weights_) := GetAttr (attr_weights info) [] in
  do _ <- (if status
           then ENFORCE (length weights_ =? length ngram_indexes_)%nat
                  "weights and indexes must have equal size"
           else Ok tt);
  let '(status, pool_strings_) := GetAttr (attr_pool_strings info) [] in
  do pool_int64s <-
    (if status
     then do _ <- ENFORCE (negb (is_empty pool_strings_))
                    "pool_strings must not be empty if specified";
          Ok []
     else let '(status, pool_int64s) := GetAttr (attr_pool_int64s info) [] in
          do _ <- ENFORCE (status && negb (is_empty pool_int64s))
                    "non-empty pool_int64s is required if pool_strings not provided";
          Ok pool_int64s);
  do st <- build_loop ngram_counts_ pool_strings_ pool_int64s;
  do _ <- (if is_empty pool_strings_
           then ENFORCE (length (b_int_set st) =? length ngram_indexes_)%nat
                  "n-grams in the pool does not match ngram_indexes size"
           else ENFORCE (length pool_strings_ =? length ngram_indexes_)%nat
                  "n-grams in the pool does not match ngram_indexes size");
  Ok (mkImpl mode_ N_ M_ S_ all_ ngram_counts_ ngram_indexes_ weights_
        pool_strings_ (b_str_set st) (b_int_set st)).

(* ===================================================================== *)
(** ** Tensors and the kernel context *)
(* ===================================================================== *)

(** The buffer of a tensor, by element type. [OtherData] stands for every
    element type the kernel has no branch for (float, bool, ...). *)
Inductive TensorData : Type :=
| Int32Data (l : list Z)
| Int64Data (l : list Z)
| StringData (l : list string)
| OtherData (elem_type : string).

Record Tensor : Type := mkTensor {
  Shape : list Z;
  Data : TensorData
}.

(** Input 0 and output 0 of the node; [None] is an output nobody wrote. *)
Record OpKernelContext : Type := mkCtx {
  Input0 : Tensor;
  Output0 : option (list Z * list float)   (* output_shape, contents *)
}.

Inductive StatusCode : Type := OK | INVALID_ARGUMENT.

Record Status : Type := mkStatus {
  code : StatusCode;
  message : string
}.

(* ===================================================================== *)
(** ** [Ngram::OutputResult] *)
(* ===================================================================== *)

(** A [switch] as C++ runs it: control jumps to the statement that carries
    the matching [case] label (or [default]), wherever in the body the
    label stands, and runs on until a [break] or the end of the body. *)
Section Switch.
Context {L St : Type}.
Variable label_eqb : L -> L -> bool.

Inductive leaves : Type := Break | FallThrough.

Record labelled : Type := mkLabelled {
  case_labels : list L;
  default_label : bool;
  stmt : St -> res St;
  leave : leaves
}.

Fixpoint run_from (body : list labelled) (st : St) : res St :=
  match body with
  | [] => Ok st
  | s :: body' =>
      do st' <- stmt s st;
      match leave s with
      | Break => Ok st'
      | FallThrough => run_from body' st'
      end
  end.

Fixpoint jump_case (v : L) (body : list labelled) : option (list labelled) :=
  match body with
  | [] => None
  | s :: body' =>
      if existsb (label_eqb v) (case_labels s) then Some body
      else jump_case v body'
  end.

Fixpoint jump_default (body : list labelled) : option (list labelled) :=
  match body with
  | [] => None
  | s :: body' => if default_label s then Some body else jump_default body'
  end.

Definition switch (v : L) (body : list labelled) (st : St) : res St :=
  match jump_case v body with
  | Some target => run_from target st
  | None =>
      match jump_default body with
      | Some target => run_from target st
      | None => Ok st
      end
  end.
End Switch.

Arguments mkLabelled {L St} case_labels default_label stmt leave.

Section OutputResult.
Variable impl : Impl.
Variable frequences : list Z.

(** [for (size_t i = ...; i < frequences.size(); ++i) *output_data++ = f(frequences[i], w[i])]:
    [remaining] is [frequences.size() - i]; the list is what was
    written through [output_data] so far. *)
Fixpoint weighted_loop (f : Z -> float -> float) (remaining : nat) (i : nat)
    (output_data : list float) : res (list float) :=
  match remaining with
  | O => Ok output_data
  | S remaining' =>
      match frequences !! i, weights_ impl !! i with
      | Some fi, Some wi =>
          weighted_loop f remaining' (S i) (output_data ++ [f fi wi])
      | _, _ => Fail BadRead
      end
  end.

(** [std::transform] and the range-[for]: one value per frequency. *)
Definition each (f : Z -> float) (output_data : list float) : res (list float) :=
  Ok (output_data ++ map f frequences).

Definition case_kTF : list float -> res (list float) :=
  each float_of_uint32.

Definition case_kIDF (output_data : list float) : res (list float) :=
  let w := weights_ impl in
  if negb (is_empty w) then
    do _ <- ASSERT (length frequences =? length w)%nat
              "frequences.size() == w.size()";
    weighted_loop (fun fi wi => if fi >? 0 then wi else float_zero)
      (length frequences) 0%nat output_data
  else
    each (fun f => if f >? 0 then float_one else float_zero) output_data.

Definition case_kTFIDF (output_data : list float) : res (list float) :=
  let w := weights_ impl in
  if negb (is_empty w) then
    do _ <- ASSERT (length frequences =? length w)%nat
              "frequences.size() == w.size()";
    weighted_loop (fun fi wi => float_mul (float_of_uint32 fi) wi)
      (length frequences) 0%nat output_data
  else
    each float_of_uint32 output_data.

(** The body of [switch (impl_->mode_)] in the order of the text: the
    labels [kTFIDF], [kNone] and [default] stand inside the block that
    the label [kIDF] opens, after its [break]. *)
Definition OutputResult_body : list (@labelled Mode (list float)) :=
  [ mkLabelled [kTF] false case_kTF Break;
    mkLabelled [kIDF] false case_kIDF Break;
    mkLabelled [kTFIDF] false case_kTFIDF Break;
    mkLabelled [kNone] true
      (fun _ => Fail (AssertFailed "false")) FallThrough ].

Definition OutputResult (ctx : OpKernelContext) : res OpKernelContext :=
  let output_dims := [size frequences] in
  do output_data <- switch Mode_eqb (mode_ impl) OutputResult_body [];
  Ok (mkCtx (Input0 ctx) (Some (output_dims, output_data))).
End OutputResult.

(* ===================================================================== *)
(** ** [Ngram::ComputeImpl<T>] *)
(* ===================================================================== *)

(** What the specializations for a token type [T] provide: the conversion
    of a token at [AddItem] to the element type [K] of the key,
    [Impl::Find<T>] ([None] for [PoolEnd<T>()]) and [Impl::GetPoolSize<T>]. *)
Record TokenType (T K : Type) : Type := mkTokenType {
  to_key : T -> K;
  Find : Impl -> NGramItem K -> option (NGramItem K);
  GetPoolSize : Impl -> nat
}.

Arguments to_key {T K} _ _.
Arguments Find {T K} _ _ _.
Arguments GetPoolSize {T K} _ _.

Definition token_int64 : TokenType Z Z :=
  mkTokenType Z Z (fun t => t)
    (fun impl i => set_find int_item_eq (int_set_ impl) i)
    (fun impl => length (int_set_ impl)).

(** [NGramItem<int32_t>] is an [NGramItem<int64_t>]: [AddItem(int64_t)]
    widens the token, [Find<int32_t>] searches [int_set_] and
    [GetPoolSize<int32_t>] is [GetPoolSize<int64_t>]. *)
Definition token_int32 : TokenType Z Z :=
  mkTokenType Z Z int32_to_int64
    (fun impl i => set_find int_item_eq (int_set_ impl) i)
    (GetPoolSize token_int64).

Definition token_string : TokenType string string :=
  mkTokenType string string (fun t => t)
    (fun impl i => set_find str_item_eq (str_set_ impl) i)
    (fun impl => length (str_set_ impl)).

(** [Impl::IncrementCount]. *)
Definition IncrementCount (impl : Impl) (ngram_id : nat) (frequencies : list Z)
    : res (list Z) :=
  do _ <- ASSERT (ngram_id <? length (ngram_indexes_ impl))%nat
            "ngram_id < ngram_indexes_.size()";
  match ngram_indexes_ impl !! ngram_id with
  | None => Fail BadRead
  | Some output_idx =>
      do _ <- ENFORCE (output_idx >=? 0) "ngram_indxes has a negative index";
      do _ <- ASSERT (to_size_t output_idx <? size frequencies)
                "static_cast<size_t>(output_idx) < frequencies.size()";
      match frequencies !! Z.to_nat output_idx with
      | None => Fail BadRead
      | Some f => Ok (<[Z.to_nat output_idx := uint32_incr f]> frequencies)
      end
  end.

Section ComputeImpl.
Context {T K : Type}.
Variable token : TokenType T K.
Variable impl : Impl.
Variable input_data : list T.
Variable total_items : Z.

(** Pointers into the input are offsets from [input_data]. *)
Definition end_data : Z := total_items.

Definition deref (p : Z) : res T :=
  if p <? 0 then Fail BadRead
  else match input_data !! Z.to_nat p with
       | Some t => Ok t
       | None => Fail BadRead
       end.

(** [sample.Clear()] on the local [sample]: no operation changes the id
    of the sample, so every window starts from this value. *)
Definition cleared_sample : NGramItem K := Clear sample_empty.

(** [hit = impl.Find<T>(sample); if (hit != set_end) IncrementCount(...)]. *)
Definition probe (sample : NGramItem K) (frequencies : list Z) : res (list Z) :=
  match Find token impl sample with
  | Some hit => IncrementCount impl (id_ hit) frequencies
  | None => Ok frequencies
  end.

(** [while (first != end_data)] of the unigram branch. *)
Fixpoint unigram_loop (fuel : nat) (first : Z) (frequencies : list Z)
    : res (list Z) :=
  match fuel with
  | O => Fail OutOfFuel
  | S fuel' =>
      if negb (first =? end_data) then
        do t <- deref first;
        let sample := AddItem cleared_sample (to_key token t) in
        do frequencies <- probe sample frequencies;
        unigram_loop fuel' (first + 1) frequencies
      else Ok frequencies
  end.

(** [while (ngram_item < ngram_end)]: the tokens of one window. *)
Fixpoint collect (fuel : nat) (si ngram_end ngram_item : Z)
    (sample : NGramItem K) : res (NGramItem K) :=
  match fuel with
  | O => Fail OutOfFuel
  | S fuel' =>
      if ngram_item <? ngram_end then
        do t <- deref ngram_item;
        collect fuel' si ngram_end (ngram_item + si)
          (AddItem sample (to_key token t))
      else Ok sample
  end.

(** [while (ngram_start < end_data)]: the windows of one length and
    one distance. The pointers are offsets in [Z] and [ngram_end] is
    computed in [Z]: the source computes [si * (ni - 1) + 1] in
    [int64_t] and adds it to a [const T*], which is this value as long
    as neither wraps (see [offset_in_range] below). *)
Fixpoint window_loop (fuel : nat) (ni si ngram_start : Z)
    (frequencies : list Z) : res (list Z) :=
  match fuel with
  | O => Fail OutOfFuel
  | S fuel' =>
      if ngram_start <? end_data then
        let ngram_end := ngram_start + si * (ni - 1) + 1 in
        if ngram_end >? end_data then Ok frequencies (* break *)
        else
          do sample <- collect (S (Z.to_nat (ngram_end - ngram_start)))
                         si ngram_end ngram_start cleared_sample;
          do frequencies <- probe sample frequencies;
          window_loop fuel' ni si (ngram_start + 1) frequencies
      else Ok frequencies
  end.

(** [for (auto si = 1; si <= S; ++si)]. The counter [si] is an [int]
    in the source, compared with the [int64_t] [S]; it is the integer
    of this loop as long as [S] is below 2^31 - 1. *)
Fixpoint skip_loop (fuel : nat) (ni S si : Z) (frequencies : list Z)
    : res (list Z) :=
  match fuel with
  | O => Fail OutOfFuel
  | Datatypes.S fuel' =>
      if si <=? S then
        do frequencies <-
          window_loop (Datatypes.S (Z.to_nat total_items)) ni si 0 frequencies;
        skip_loop fuel' ni S (si + 1) frequencies
      else Ok frequencies
  end.

(** [for (auto ni = n; ni <= N; ++ni)]. *)
Fixpoint length_loop (fuel : nat) (N S ni : Z) (frequencies : list Z)
    : res (list Z) :=
  match fuel with
  | O => Fail OutOfFuel
  | Datatypes.S fuel' =>
      if ni <=? N then
        do frequencies <-
          (if ni =? 1 then
             unigram_loop (Datatypes.S (Z.to_nat total_items)) 0 frequencies
           else
             skip_loop (Datatypes.S (Z.to_nat S)) ni S 1 frequencies);
        length_loop fuel' N S (ni + 1) frequencies
      else Ok frequencies
  end.

(** The frequencies that [ComputeImpl] hands to [OutputResult]. The
    source computes [S_ + 1] in [int64_t]: it is this sum for every
    [S_] below 2^63 - 1. *)
Definition ComputeImpl_frequencies : res (list Z) :=
  let frequencies := replicate (GetPoolSize token impl) 0 in
  let N := N_ impl in
  let S := S_ impl + 1 in
  let n := if all_ impl then M_ impl else N in
  length_loop (Datatypes.S (Z.to_nat (N - n + 1))) N S n frequencies.

Definition ComputeImpl (ctx : OpKernelContext) : res OpKernelContext :=
  do frequencies <- ComputeImpl_frequencies;
  OutputResult impl frequencies ctx.
End ComputeImpl.

(* ===================================================================== *)
(** ** [Ngram::Compute] *)
(* ===================================================================== *)

(** [total_items] from the dimensions of the input. *)
Definition count_items (input_dims : list Z) : Z :=
  if is_empty input_dims
     || ((length input_dims =? 1)%nat && (hd 0 input_dims =? 0))
  then 1
  else fold_left (fun total_items dim => to_size_t (total_items * to_size_t dim))
         input_dims 1.

Definition Compute (impl : Impl) (ctx : OpKernelContext)
    : res (Status * OpKernelContext) :=
  let s := mkStatus OK "" in
  let X := Input0 ctx in
  let total_items := count_items (Shape X) in
  match Data X with
  | Int32Data input_data =>
      do ctx' <- ComputeImpl token_int32 impl input_data total_items ctx;
      Ok (s, ctx')
  | Int64Data input_data =>
      do ctx' <- ComputeImpl token_int64 impl input_data total_items ctx;
      Ok (s, ctx')
  | StringData input_data =>
      do ctx' <- ComputeImpl token_string impl input_data total_items ctx;
      Ok (s, ctx')
  | OtherData _ =>
      Ok (mkStatus INVALID_ARGUMENT "Invalid type of the input argument", ctx)
  end.

(** A one-dimensional tensor over a buffer, and a call on it. *)
Definition tensor_of (d : TensorData) (n : nat) : Tensor :=
  mkTensor [Z.of_nat n] d.

Definition call (impl : Impl) (X : Tensor) : res (Status * OpKernelContext) :=
  Compute impl (mkCtx X None).

(* ===================================================================== *)
(** ** Configurations used below *)
(* ===================================================================== *)

Definition with_S (info : OpKernelInfo) (S : option Z) : OpKernelInfo :=
  mkInfo (attr_mode info) (attr_M info) (attr_N info) S (attr_all info)
    (attr_ngram_counts info) (attr_ngram_indexes info) (attr_weights info)
    (attr_pool_strings info) (attr_pool_int64s info).

Definition without_pool_int64s (info : OpKernelInfo) : OpKernelInfo :=
  mkInfo (attr_mode info) (attr_M info) (attr_N info) (attr_S info)
    (attr_all info) (attr_ngram_counts info) (attr_ngram_indexes info)
    (attr_weights info) (attr_pool_strings info) None.

(** Unigrams 5, 6, 7 on the output slots 0, 1, 2. *)
Definition unigrams_567 : OpKernelInfo :=
  mkInfo (Some "TF") (Some 1) (Some 1) (Some 0) (Some 0)
    (Some [0]) (Some [0; 1; 2]) None None (Some [5; 6; 7]).

(** The bigram (1, 3) on slot 0, one skip allowed. *)
Definition skip_bigram_13 : OpKernelInfo :=
  mkInfo (Some "TF") (Some 2) (Some 2) (Some 1) (Some 0)
    (Some [0; 0]) (Some [0]) None None (Some [1; 3]).

(** One string bigram (a, b), with [n] output slots [0 .. n-1]. *)
Definition string_bigram_ab (ngram_indexes : list Z) : OpKernelInfo :=
  mkInfo (Some "TF") (Some 2) (Some 2) (Some 0) (Some 0)
    (Some [0; 0]) (Some ngram_indexes) None (Some ["a"; "b"]) None.

(** Both pools at once: the unigrams a, b and the integers 5, 6. *)
Definition both_pools : OpKernelInfo :=
  mkInfo (Some "TF") (Some 1) (Some 1) (Some 0) (Some 0)
    (Some [0]) (Some [0; 1]) None (Some ["a"; "b"]) (Some [5; 6]).

Definition no_pool : OpKernelInfo :=
  mkInfo (Some "TF") (Some 1) (Some 1) (Some 0) (Some 0)
    (Some [0]) (Some [0; 1]) None None None.

(** The unigram 5 on output slot 2. *)
Definition unigram_5_slot_2 : OpKernelInfo :=
  mkInfo (Some "TF") (Some 1) (Some 1) (Some 0) (Some 0)
    (Some [0]) (Some [2]) None None (Some [5]).

(** Construction followed by one call. *)
Definition run (info : OpKernelInfo) (X : Tensor)
    : res (Status * OpKernelContext) :=
  do impl <- Ngram info; call impl X.

(** What a call leaves for the caller: the status and output 0. *)
Definition outcome (r : res (Status * OpKernelContext))
    : res (Status * option (list Z * list float)) :=
  do sc <- r; Ok (fst sc, Output0 (snd sc)).

(* ===================================================================== *)
(** ** Notions used in the statements *)
(* ===================================================================== *)

(** A [ConfigError]: the exception of a failed [ONNXRUNTIME_ENFORCE]. *)
Definition config_error {A : Type} (r : res A) : Prop :=
  exists msg, r = Fail (EnforceFailed msg).

(** Same length and equal tokens at every position. *)
Definition same_tokens {T : Type} (a o : list T) : Prop :=
  length a = length o
  /\ forall (i : nat) (x y : T), a !! i = Some x -> o !! i = Some y -> x = y.

(** The [k]-th run of [ngram_size] tokens from the iterator [first] on. *)
Definition chunk {T : Type} (first : list T) (ngram_size k : nat) : list T :=
  take ngram_size (drop (k * ngram_size) first).

(** The set stores an entry with the tokens [w]. *)
Definition holds {T : Type} (c : list (NGramItem T)) (w : list T) : Prop :=
  exists e, In e c /\ items_ e = w.

(** The bounds [start_idx], [end_idx] of the segment of index [i], which
    holds the n-grams of [i + 1] tokens. *)
Definition segment (ngram_counts : list Z) (total_items : Z) (i : nat)
    : option (Z * Z) :=
  match ngram_counts !! i with
  | None => None
  | Some c =>
      Some (to_size_t c,
            match ngram_counts !! S i with
            | Some c' => to_size_t c'
            | None => total_items
            end)
  end.

(** The chunks [j] and [k] of the segment [i] of the pool lie inside the
    segment, one after the other, and hold the same tokens. *)
Definition repeated_chunk {T : Type} (ngram_counts : list Z) (pool : list T)
    (i j k : nat) : Prop :=
  exists start_idx end_idx,
    segment ngram_counts (size pool) i = Some (start_idx, end_idx)
    /\ (j < k)%nat
    /\ start_idx + (Z.of_nat k + 1) * Z.of_nat (S i) <= end_idx
    /\ chunk (drop (Z.to_nat start_idx) pool) (S i) j
       = chunk (drop (Z.to_nat start_idx) pool) (S i) k.

(** The pool that the constructor reads, with a repeated chunk. *)
Definition pool_repeats (info : OpKernelInfo) (i j k : nat) : Prop :=
  match attr_ngram_counts info, attr_pool_strings info, attr_pool_int64s info with
  | Some ngram_counts, Some pool, _ => repeated_chunk ngram_counts pool i j k
  | Some ngram_counts, None, Some pool => repeated_chunk ngram_counts pool i j k
  | _, _, _ => False
  end.

(** Two string bigrams (a, b), (a, b); two integer bigrams (1, 3), (1, 3). *)
Definition repeated_string_bigram : OpKernelInfo :=
  mkInfo (Some "TF") (Some 2) (Some 2) (Some 0) (Some 0)
    (Some [0; 0]) (Some [0; 1; 2; 3]) None (Some ["a"; "b"; "a"; "b"]) None.

Definition repeated_int_bigram : OpKernelInfo :=
  mkInfo (Some "TF") (Some 2) (Some 2) (Some 0) (Some 0)
    (Some [0; 0]) (Some [0; 1]) None None (Some [1; 3; 1; 3]).

(** The pool that the loop reads has a repeated chunk in segment [i]. *)
Definition active_pool_repeats (ngram_counts : list Z)
    (pool_strings : list string) (pool_int64s : list Z) (i j k : nat) : Prop :=
  if is_empty pool_strings
  then repeated_chunk ngram_counts pool_int64s i j k
  else repeated_chunk ngram_counts pool_strings i j k.

Section Windows.
Context {T : Type}.
Variable input : list T.

(** The raw positions one window covers. *)
Definition window_span (ni si : Z) : Z := si * (ni - 1) + 1.

(** The [ni] tokens at distance [si] from the position [p] on. *)
Definition window_at (ni si p : Z) : list T :=
  omap (fun k : nat => input !! Z.to_nat (p + si * Z.of_nat k))
    (seq 0 (Z.to_nat ni)).

(** Every start at which the whole span fits in the input, in order. *)
Definition window_starts (ni si : Z) : list Z :=
  seqZ 0 (size input - window_span ni si + 1).

Definition windows (ni si : Z) : list (list T) :=
  map (window_at ni si) (window_starts ni si).

Definition unigram_windows : list (list T) := map (fun t => [t]) input.

(** The windows of one length: the distances 1 .. S, one after the
    other; no distance for unigrams. *)
Definition windows_of_length (S ni : Z) : list (list T) :=
  if ni =? 1 then unigram_windows
  else concat (map (windows ni) (seqZ 1 S)).

(** The windows of the lengths n .. N. *)
Definition all_windows (n N S : Z) : list (list T) :=
  concat (map (windows_of_length S) (seqZ n (N - n + 1))).
End Windows.

(** The range in which the integers of the loops are those of the
    machine. For a length [ni] below 2^24 and a distance [si] of at most
    2^24, the counter [si] fits the [int] of the source, the span
    [si * (ni - 1) + 1] is below 2^48 and fits its [int64_t], and the byte
    offset of [ngram_start + span], with elements of 4 (int32), 8 (int64)
    or 32 bytes (std::string), stays below 2^53 past the input buffer, so
    the pointer does not wrap and [ngram_end > end_data] compares the
    positions. The statements about the windows that the loops read are
    made in this range. *)
Definition offset_in_range (ni si : Z) : Prop :=
  ni < 2 ^ 24 /\ si <= 2 ^ 24.

(** The same for a kernel: its longest n-gram [N_] and its largest
    distance [S_ + 1]. *)
Definition offsets_in_range (impl : Impl) : Prop :=
  offset_in_range (N_ impl) (S_ impl + 1).

(** Probing a list of windows in order, each as the sample of its tokens. *)
Fixpoint probe_all {T K : Type} (token : TokenType T K) (impl : Impl)
    (ws : list (list T)) (frequencies : list Z) : res (list Z) :=
  match ws with
  | [] => Ok frequencies
  | w :: ws' =>
      do frequencies <-
        probe token impl (mkNGramItem 0%nat (map (to_key token) w)) frequencies;
      probe_all token impl ws' frequencies
  end.

(** The encoding table of the specification: the output for one count,
    by mode, with the weight of its slot or without weights. *)
Definition spec_encode (mode : Mode) (weight : option float) (count : Z)
    : float :=
  match mode, weight with
  | kTF, _ => float_of_uint32 count
  | kIDF, Some w => if count >? 0 then w else float_zero
  | kIDF, None => if count >? 0 then float_one else float_zero
  | kTFIDF, Some w => float_mul (float_of_uint32 count) w
  | kTFIDF, None => float_of_uint32 count
  | kNone, _ => float_zero
  end.

(** Scenario D of the specification: IDF without weights. *)
Definition idf_no_weights : Impl :=
  mkImpl kIDF 1 1 0 false [0] [0; 1] [] []
    [] [mkNGramItem 0 [5]; mkNGramItem 1 [6]].

(** The kernel that [Ngram] builds from [skip_bigram_13]. *)
Definition skip_bigram_13_impl : Impl :=
  mkImpl kTF 2 2 1 false [0; 0] [0] [] [] [] [mkNGramItem 0 [1; 3]].

(** The kernel that [Ngram] builds from [unigram_5_slot_2]. *)
Definition unigram_5_slot_2_impl : Impl :=
  mkImpl kTF 1 1 0 false [0] [2] [] [] [] [mkNGramItem 0 [5]].

(* ===================================================================== *)
(** ** core/providers/cpu/nn/conv_impl.h *)
(* ===================================================================== *)

(** [fuse_activation] and the shape stage of [Conv<T>::Compute]. The
    element-wise array operations of Eigen, and the helpers of the
    convolution base class that conv_impl.h calls but does not define
    ([ValidateInputShape], [ComputeKernelShape], [InferOutputShape],
    [TensorShape::ToString]), are parameters. *)
Module Conv.

Inductive outcome (A : Type) : Type :=
| Returned (a : A)
| NotImplemented (msg : string)  (* ONNXRUNTIME_NOT_IMPLEMENTED(...) throws *)
| OutOfBuffer.                   (* an array map longer than its buffer *)

Arguments Returned {A} a.
Arguments NotImplemented {A} msg.
Arguments OutOfBuffer {A}.

Section Activation.
Context {T : Type}.
Variable cwiseMax0 : T -> T.     (* y.cwiseMax(0) *)
Variable logistic : T -> T.      (* 1 / (1. + (-y.abs()).exp()) *)
Variable one_minus : T -> T.     (* 1 - z *)
Variable array_tanh : T -> T.    (* y.tanh() *)
Variable ge0 : T -> bool.        (* y >= 0 *)
Variable scale : float -> T -> T. (* (T)alpha * y *)

(** [y_vec = f(y_vec)] on [EigenVectorArrayMap<T> y_vec(y_data, size)]:
    the first [size] elements of the buffer are replaced. *)
Definition assign_vec (f : T -> T) (y_data : list T) (size : nat)
    : outcome (list T) :=
  if (size <=? length y_data)%nat
  then Returned (map f (take size y_data) ++ drop size y_data)
  else OutOfBuffer.

Definition fuse_activation (activation : string) (y_data : list T)
    (size : nat) (alpha : float) : outcome (list T) :=
  if String.eqb activation "" then Returned y_data
  else if String.eqb activation "Relu" then
    assign_vec cwiseMax0 y_data size
  else if String.eqb activation "Sigmoid" then
    assign_vec (fun y => if ge0 y then logistic y else one_minus (logistic y))
      y_data size
  else if String.eqb activation "Tanh" then
    assign_vec array_tanh y_data size
  else if String.eqb activation "LeakyRelu" then
    assign_vec (fun y => if ge0 y then y else scale alpha y) y_data size
  else
    NotImplemented ("Not implemented fused activation: " ++ activation)%string.
End Activation.

(** A [Status]: OK, or a failure with its code and message. *)
Inductive Status : Type :=
| Status_OK
| Status_failure (code : string) (message : string).

(** The attributes of the convolution base class that the shape stage
    reads. *)
Record ConvAttributes : Type := mkConvAttributes {
  pads_ : list Z;
  dilations_ : list Z;
  strides_ : list Z
}.

(** What the shape stage hands to the computation. *)
Record Shapes : Type := mkShapes {
  sh_N : Z;
  sh_C : Z;
  sh_M : Z;
  sh_kernel_shape : list Z;
  sh_pads : list Z;
  sh_dilations : list Z;
  sh_strides : list Z;
  sh_Y_dims : list Z
}.

Inductive stage (A : Type) : Type :=
| Goes_on (a : A)
| Returns (s : Status)   (* [return status] *)
| BadIndex.              (* [Shape()[i]] with i outside the shape *)

Arguments Goes_on {A} a.
Arguments Returns {A} s.
Arguments BadIndex {A}.

Section ComputeShapes.
Variable ValidateInputShape : list Z -> list Z -> Status.
Variable ComputeKernelShape : list Z -> list Z.
(** [InferOutputShape(input_shape, kernel_shape, strides, dilations, &pads,
    &Y_dims)]: the status, and [pads] and [Y_dims] afterwards. *)
Variable InferOutputShape :
  list Z -> list Z -> list Z -> list Z -> list Z -> list Z ->
  Status * list Z * list Z.
Variable ToString : list Z -> string.

Variable attrs : ConvAttributes.

(** [for (size_t i = ...; i < kernel_shape.size(); ++i)
       if (kernel_shape[i] != W->Shape()[i + 2]) return ...]:
    [Some true] when a dimension differs, [None] for a read outside [W]'s
    shape. *)
Fixpoint kernel_dims_differ (kernel_shape W_dims : list Z)
    (remaining i : nat) : option bool :=
  match remaining with
  | O => Some false
  | S remaining' =>
      match kernel_shape !! i, W_dims !! (i + 2)%nat with
      | Some k, Some w =>
          if negb (k =? w) then Some true
          else kernel_dims_differ kernel_shape W_dims remaining' (S i)
      | _, _ => None
      end
  end.

(** [std::vector<int64_t> v(attr); if (v.empty()) v.resize(n, value);] *)
Definition or_default (attr : list Z) (n : nat) (value : Z) : list Z :=
  if is_empty attr then replicate n value else attr.

(** [Conv<T>::Compute] from its first line to the inference of the output
    shape. *)
Definition Compute_shapes (X_dims W_dims : list Z) : stage Shapes :=
  match X_dims !! 0%nat, X_dims !! 1%nat, W_dims !! 0%nat with
  | Some N, Some C, Some M =>
      match ValidateInputShape X_dims W_dims with
      | Status_failure code message => Returns (Status_failure code message)
      | Status_OK =>
          let kernel_shape := ComputeKernelShape W_dims in
          if negb (length kernel_shape + 2 =? length W_dims)%nat then
            Returns (Status_failure "FAIL"
              ("kernel_shape num_dims is not compatible with W num_dims."
               ++ " kernel_shape: " ++ ToString kernel_shape
               ++ " W: " ++ ToString W_dims)%string)
          else
            match kernel_dims_differ kernel_shape W_dims
                    (length kernel_shape) 0 with
            | None => BadIndex
            | Some true =>
                Returns (Status_failure "FAIL"
                  ("kernel_shape is not compatible with W shape."
                   ++ " kernel_shape: " ++ ToString kernel_shape
                   ++ " W: " ++ ToString W_dims)%string)
            | Some false =>
                let pads :=
                  or_default (pads_ attrs) (length kernel_shape * 2) 0 in
                let dilations :=
                  or_default (dilations_ attrs) (length kernel_shape) 1 in
                let strides :=
                  or_default (strides_ attrs) (length kernel_shape) 1 in
                let Y_dims := [N; M] in
                let input_shape := drop 2 X_dims in
                match InferOutputShape input_shape kernel_shape strides
                        dilations pads Y_dims with
                | (Status_failure code message, _, _) =>
                    Returns (Status_failure code message)
                | (Status_OK, pads, Y_dims) =>
                    Goes_on (mkShapes N C M kernel_shape pads dilations
                               strides Y_dims)
                end
            end
      end
  | _, _, _ => BadIndex
  end.
End ComputeShapes.

End Conv.

(** The keys of a set are pairwise different. *)
Definition keys_distinct {T : Type} (c : list (NGramItem T)) : Prop :=
  List.NoDup (map items_ c).

(** The entries that one call of [Emplace] offers to the set: the chunk
    [k] with the id [first_id + k]. *)
Definition segment_entries {T : Type} (first : list T)
    (ngrams ngram_size first_id : nat) : list (NGramItem T) :=
  map (fun k => mkNGramItem (first_id + k)%nat (chunk first ngram_size k))
    (seq 0 ngrams).

(** What the pool loop keeps true of the set it fills: the ids are the
    positions, the keys differ, and every entry has at least one token
    and fewer than [ngram_size]. *)
Definition set_inv {T : Type} (ngram_size ngram_id : nat)
    (c : list (NGramItem T)) : Prop :=
  map id_ c = seq 0 ngram_id
  /\ keys_distinct c
  /\ Forall (fun e => (1 <= length (items_ e) < ngram_size)%nat) c.

Definition build_inv (pool_strings : list string) (st : build_state) : Prop :=
  if is_empty pool_strings
  then b_str_set st = []
       /\ set_inv (b_ngram_size st) (b_ngram_id st) (b_int_set st)
  else b_int_set st = []
       /\ set_inv (b_ngram_size st) (b_ngram_id st) (b_str_set st).

(** The dictionary of a kernel: which of the two sets the pool filled,
    with what the pool loop keeps true of it; the other set is empty. *)
Definition dictionary_built (info : OpKernelInfo) (impl : Impl) : Prop :=
  (attr_pool_strings info = Some (pool_strings_ impl)
   /\ pool_strings_ impl <> []
   /\ int_set_ impl = []
   /\ length (pool_strings_ impl) = length (ngram_indexes_ impl)
   /\ set_inv (S (length (ngram_counts_ impl))) (length (str_set_ impl))
        (str_set_ impl))
  \/ (attr_pool_strings info = None
      /\ pool_strings_ impl = []
      /\ str_set_ impl = []
      /\ (exists pool, attr_pool_int64s info = Some pool /\ pool <> [])
      /\ length (int_set_ impl) = length (ngram_indexes_ impl)
      /\ set_inv (S (length (ngram_counts_ impl))) (length (int_set_ impl))
           (int_set_ impl)).

(** What the checks of the constructor establish of the kernel. *)
Record valid_kernel (info : OpKernelInfo) (impl : Impl) : Prop := mkValid {
  vk_mode : exists m, attr_mode info = Some m
                      /\ mode_ impl = mode_of_string m
                      /\ mode_ impl <> kNone;
  vk_M : attr_M info = Some (M_ impl);
  vk_N : attr_N info = Some (N_ impl);
  vk_S : attr_S info = Some (S_ impl);
  vk_lengths : 0 < M_ impl <= N_ impl;
  vk_all : exists a, attr_all info = Some a /\ all_ impl = negb (a =? 0);
  vk_counts : attr_ngram_counts info = Some (ngram_counts_ impl)
              /\ ngram_counts_ impl <> [];
  vk_indexes : attr_ngram_indexes info = Some (ngram_indexes_ impl)
               /\ ngram_indexes_ impl <> [];
  vk_weights : (attr_weights info = None /\ weights_ impl = [])
               \/ (attr_weights info = Some (weights_ impl)
                   /\ length (weights_ impl) = length (ngram_indexes_ impl));
  vk_dictionary : dictionary_built info impl
}.

(** The output slot that a window counts towards: the index of the
    n-gram its sample finds. *)
Definition slot_of {T K : Type} (token : TokenType T K) (impl : Impl)
    (w : list T) : option Z :=
  match Find token impl (mkNGramItem 0%nat (map (to_key token) w)) with
  | Some hit => ngram_indexes_ impl !! id_ hit
  | None => None
  end.

(** How many of the windows count towards a slot. *)
Fixpoint hits {T K : Type} (token : TokenType T K) (impl : Impl)
    (slot : Z) (ws : list (list T)) : Z :=
  match ws with
  | [] => 0
  | w :: ws' =>
      (match slot_of token impl w with
       | Some output_idx => if output_idx =? slot then 1 else 0
       | None => 0
       end)
      + hits token impl slot ws'
  end.

(** Every entry that a lookup can return has an output index inside the
    frequency vector. *)
Definition indexes_in_range {T K : Type} (token : TokenType T K)
    (impl : Impl) : Prop :=
  forall sample hit,
    Find token impl sample = Some hit ->
    exists output_idx,
      ngram_indexes_ impl !! id_ hit = Some output_idx
      /\ 0 <= output_idx < Z.of_nat (GetPoolSize token impl).

(** The windows that a call probes. *)
Definition probed_windows {T : Type} (impl : Impl) (input : list T)
    : list (list T) :=
  all_windows input (if all_ impl then M_ impl else N_ impl)
    (N_ impl) (S_ impl + 1).

(** The kernel with another skip count. *)
Definition with_skips (impl : Impl) (S : Z) : Impl :=
  mkImpl (mode_ impl) (N_ impl) (M_ impl) S (all_ impl)
    (ngram_counts_ impl) (ngram_indexes_ impl) (weights_ impl)
    (pool_strings_ impl) (str_set_ impl) (int_set_ impl).

(** The kernel that [Ngram] builds from [unigrams_567]. *)
Definition unigrams_567_impl : Impl :=
  mkImpl kTF 1 1 0 false [0] [0; 1; 2] [] [] []
    [mkNGramItem 0 [5]; mkNGramItem 1 [6]; mkNGramItem 2 [7]].

(** The chunks offered to the set are new to it and differ from one
    another. *)
Definition chunks_all_new {T : Type} (c : list (NGramItem T))
    (first : list T) (ngrams ngram_size : nat) : Prop :=
  (forall k, (k < ngrams)%nat -> ~ holds c (chunk first ngram_size k))
  /\ (forall j k, (j < k < ngrams)%nat ->
        chunk first ngram_size j <> chunk first ngram_size k).

(** The kernel that [Ngram] builds from [string_bigram_ab [0; 1]]. *)
Definition string_bigram_ab_impl : Impl :=
  mkImpl kTF 2 2 0 false [0; 0] [0; 1] [] ["a"; "b"]
    [mkNGramItem 0 ["a"; "b"]] [].

(** The kernel with another value of the flag [all]. *)
Definition with_all (impl : Impl) (all : bool) : Impl :=
  mkImpl (mode_ impl) (N_ impl) (M_ impl) (S_ impl) all
    (ngram_counts_ impl) (ngram_indexes_ impl) (weights_ impl)
    (pool_strings_ impl) (str_set_ impl) (int_set_ impl).

(** The segment [i] of a pool ends before it starts, ends beyond the
    pool, or does not hold a whole number of n-grams of [i + 1] tokens. *)
Definition malformed_segment {T : Type} (ngram_counts : list Z)
    (pool : list T) (i : nat) : Prop :=
  exists start_idx end_idx,
    segment ngram_counts (size pool) i = Some (start_idx, end_idx)
    /\ (end_idx < start_idx
        \/ size pool < end_idx
        \/ (end_idx - start_idx) mod Z.of_nat (S i) <> 0).

(** The pool that the constructor reads has a malformed segment. *)
Definition pool_malformed (info : OpKernelInfo) (i : nat) : Prop :=
  match attr_ngram_counts info, attr_pool_strings info, attr_pool_int64s info with
  | Some ngram_counts, Some pool, _ => malformed_segment ngram_counts pool i
  | Some ngram_counts, None, Some pool => malformed_segment ngram_counts pool i
  | _, _, _ => False
  end.

Definition active_pool_malformed (ngram_counts : list Z)
    (pool_strings : list string) (pool_int64s : list Z) (i : nat) : Prop :=
  if is_empty pool_strings
  then malformed_segment ngram_counts pool_int64s i
  else malformed_segment ngram_counts pool_strings i.

(** Three integers offered as bigrams; offsets that go down. *)
Definition odd_bigrams : OpKernelInfo :=
  mkInfo (Some "TF") (Some 2) (Some 2) (Some 0) (Some 0)
    (Some [0; 0]) (Some [0]) None None (Some [1; 3; 5]).

Definition decreasing_offsets : OpKernelInfo :=
  mkInfo (Some "TF") (Some 1) (Some 2) (Some 0) (Some 0)
    (Some [2; 0]) (Some [0; 1]) None (Some ["a"; "b"; "c"; "d"]) None.

(** The entries stand in the order of their number of tokens. *)
Definition sorted_by_length {T : Type} (c : list (NGramItem T)) : Prop :=
  forall (j k : nat) (ej ek : NGramItem T),
    (j <= k)%nat -> c !! j = Some ej -> c !! k = Some ek ->
    (length (items_ ej) <= length (items_ ek))%nat.

(** The ids follow the number of tokens: of two entries of the set, the
    one with the smaller (or the same) [id_] has no more tokens. *)
Definition ids_ordered_by_length {T : Type} (c : list (NGramItem T)) : Prop :=
  forall ej ek : NGramItem T,
    In ej c -> In ek c ->
    (id_ ej <= id_ ek)%nat ->
    (length (items_ ej) <= length (items_ ek))%nat.

(** The unigrams 5 and 6 and the bigram (1, 3), all lengths counted. *)
Definition unigrams_and_bigram : OpKernelInfo :=
  mkInfo (Some "TF") (Some 1) (Some 2) (Some 0) (Some 1)
    (Some [0; 2]) (Some [0; 1; 2]) None None (Some [5; 6; 1; 3]).

(** The kernel that [Ngram] builds from [unigrams_and_bigram]. *)
Definition unigrams_and_bigram_impl : Impl :=
  mkImpl kTF 2 1 0 true [0; 2] [0; 1; 2] [] [] []
    [mkNGramItem 0 [5]; mkNGramItem 1 [6]; mkNGramItem 2 [1; 3]].

(** Shorter entries first, all below [ngram_size] tokens. *)
Definition length_inv {T : Type} (ngram_size : nat)
    (c : list (NGramItem T)) : Prop :=
  sorted_by_length c
  /\ Forall (fun e => (length (items_ e) < ngram_size)%nat) c.

(* ===================================================================== *)
(** ** Construction: the checks of [Ngram::Ngram] *)
(* ===================================================================== *)

(** C1 (the code departs from the claim). The claim: construction fails
    when the skip count S is negative. The check written for S,
    ["Non-negative number of skips S is required"], tests [N_ >= 0]
    instead of [S_ >= 0]: the unigram configuration with S = -1 is
    accepted, and the kernel keeps S = -1. *)
Theorem C1_negative_S_is_accepted :
  exists impl, Ngram (with_S unigrams_567 (Some (-1))) = Ok impl
               /\ S_ impl = -1.
Proof. eexists. split; [vm_compute; reflexivity | reflexivity]. Qed.

(** C2 (the code departs from the claim). The claim: construction
    succeeds only if the number of entries built equals
    length(outputSlotOf). For an integer pool the final check compares
    [int_set_.size()]; for a string pool it compares
    [pool_strings_.size()], the number of tokens. With the string pool
    [a; b] read as one bigram: two output slots are accepted although one
    entry was built, and one output slot is refused although the counts
    agree. *)
Theorem C2_string_pool_compares_token_count :
  (exists impl, Ngram (string_bigram_ab [0; 1]) = Ok impl
                /\ length (str_set_ impl) = 1%nat
                /\ length (ngram_indexes_ impl) = 2%nat)
  /\ Ngram (string_bigram_ab [0])
     = Fail (EnforceFailed "n-grams in the pool does not match ngram_indexes size").
Proof.
  split; [eexists; split; [vm_compute; reflexivity | split; reflexivity]
         | vm_compute; reflexivity].
Qed.

(** C3, as the claim states it, fails: with both pools supplied the
    constructor succeeds. *)
Lemma C3_both_pools_accepted :
  attr_pool_strings both_pools <> None
  /\ attr_pool_int64s both_pools <> None
  /\ is_ok (Ngram both_pools) = true.
Proof. repeat split; try discriminate. Qed.

(** Case analysis on the attribute reads and checks of the constructor,
    in the order in which it makes them. *)
Ltac step_checks :=
  repeat (cbn [GetAttr ENFORCE bind andb negb is_empty];
          match goal with
          | |- config_error (Fail (EnforceFailed _)) => eexists; reflexivity
          | |- context [GetAttr ?a _] => is_var a; destruct a
          | |- context [ENFORCE ?c _] => destruct c
          end);
  cbn [GetAttr ENFORCE bind andb negb is_empty].

Lemma Ngram_needs_a_pool (info : OpKernelInfo) :
  attr_pool_strings info = None ->
  attr_pool_int64s info = None \/ attr_pool_int64s info = Some [] ->
  config_error (Ngram info).
Proof.
  destruct info as [mode M N S all counts indexes weights ps pi].
  cbn [attr_pool_strings attr_pool_int64s]. intros -> Hpi.
  unfold Ngram.
  cbn [attr_mode attr_M attr_N attr_S attr_all attr_ngram_counts
       attr_ngram_indexes attr_weights attr_pool_strings attr_pool_int64s].
  destruct Hpi as [-> | ->]; step_checks.
Qed.

Lemma Ngram_empty_pool_strings (info : OpKernelInfo) :
  attr_pool_strings info = Some [] -> config_error (Ngram info).
Proof.
  destruct info as [mode M N S all counts indexes weights ps pi].
  cbn [attr_pool_strings]. intros ->.
  unfold Ngram.
  cbn [attr_mode attr_M attr_N attr_S attr_all attr_ngram_counts
       attr_ngram_indexes attr_weights attr_pool_strings attr_pool_int64s].
  step_checks.
Qed.

Lemma Ngram_prefers_pool_strings (info : OpKernelInfo) (pool : list string) :
  attr_pool_strings info = Some pool ->
  Ngram info = Ngram (without_pool_int64s info).
Proof.
  destruct info as [mode M N S all counts indexes weights ps pi].
  cbn [attr_pool_strings]. intros ->. reflexivity.
Qed.

(** C3 (amended). Construction fails with a ConfigError when neither pool
    is supplied, and when the pool it reads is empty (stringPool supplied
    and empty; or stringPool absent and integerPool empty). When both are
    supplied it does not fail on that account: stringPool is used and
    integerPool is never read, so construction does what it does with
    stringPool alone. *)
Theorem C3_pool_selection (info : OpKernelInfo) :
  (attr_pool_strings info = None -> attr_pool_int64s info = None ->
   config_error (Ngram info))
  /\ (attr_pool_strings info = Some [] -> config_error (Ngram info))
  /\ (attr_pool_strings info = None -> attr_pool_int64s info = Some [] ->
      config_error (Ngram info))
  /\ (forall pool, attr_pool_strings info = Some pool ->
      Ngram info = Ngram (without_pool_int64s info)).
Proof.
  split; [| split; [| split]].
  - intros Hs Hi. apply Ngram_needs_a_pool; auto.
  - apply Ngram_empty_pool_strings.
  - intros Hs Hi. apply Ngram_needs_a_pool; auto.
  - apply Ngram_prefers_pool_strings.
Qed.

Lemma C3_pool_selection_witness :
  config_error (Ngram no_pool)
  /\ Ngram both_pools = Ngram (without_pool_int64s both_pools).
Proof.
  split.
  - exact (proj1 (C3_pool_selection no_pool) eq_refl eq_refl).
  - exact (proj2 (proj2 (proj2 (C3_pool_selection both_pools)))
             ["a"; "b"] eq_refl).
Defined.

(* ===================================================================== *)
(** ** Token keys: equality and hash *)
(* ===================================================================== *)

Lemma same_tokens_eq {T : Type} (a o : list T) : same_tokens a o <-> a = o.
Proof.
  split.
  - intros [Hlen Hnth].
    apply (list_eq_same_length a o (length o)); auto.
    intros i x y _. apply Hnth.
  - intros ->. split; [reflexivity |]. intros i x y Hx Hy. congruence.
Qed.

Section StdEqual.
Context {T : Type}.
Variable eq : T -> T -> bool.
Hypothesis eq_spec : forall x y, eq x y = true <-> x = y.

Lemma std_equal_spec (a b : list T) : std_equal eq a b = true <-> a = b.
Proof.
  revert b. induction a as [| x a IH]; intros [| y b]; simpl;
    try (split; [discriminate | congruence]); try tauto.
  rewrite andb_true_iff, eq_spec, IH. split.
  - intros [-> ->]. reflexivity.
  - intros [= -> ->]. auto.
Qed.
End StdEqual.

Lemma int_item_eq_spec (a o : NGramItem Z) :
  int_item_eq a o = true <-> items_ a = items_ o.
Proof.
  unfold int_item_eq.
  rewrite andb_true_iff, (std_equal_spec Z.eqb Z.eqb_eq), Nat.eqb_eq.
  split; [tauto | intros ->; auto].
Qed.

Lemma str_item_eq_spec (a o : NGramItem string) :
  str_item_eq a o = true <-> items_ a = items_ o.
Proof.
  unfold str_item_eq.
  destruct (Nat.eqb_spec (length (items_ a)) (length (items_ o))) as [Hlen | Hlen].
  - apply (std_equal_spec String.eqb String.eqb_eq).
  - split; [discriminate | intros Heq; rewrite Heq in Hlen; contradiction].
Qed.

(** Equal keys hash alike, whatever [std::hash<T>] is. *)
Lemma hash_respects_eq {T : Type} (hf : T -> Z) (a o : NGramItem T) :
  items_ a = items_ o -> hash hf a = hash hf o.
Proof. unfold hash. intros ->. reflexivity. Qed.

(** C8, as the claim states it, fails: the window (1, 2, 1) has more than
    one token, and its reversal is the same key. *)
Lemma C8_palindrome_keeps_its_key :
  (1 < length [1; 2; 1])%nat
  /\ int_item_eq (mkNGramItem 0 (rev [1; 2; 1])) (mkNGramItem 0 [1; 2; 1]) = true
  /\ str_item_eq (mkNGramItem 0 (rev ["a"; "b"; "a"]))
       (mkNGramItem 0 ["a"; "b"; "a"]) = true.
Proof. repeat split. simpl. lia. Qed.

(** C8 (amended). Two keys are equal iff their windows have the same
    length and equal tokens at every position, whatever their ids; so
    reversing the content of a window changes its key exactly when the
    window does not read the same in both directions. Both hold for
    integer keys and for string keys. *)
Theorem C8_key_equality_is_positional :
  (forall a o : NGramItem Z,
      int_item_eq a o = true <-> same_tokens (items_ a) (items_ o))
  /\ (forall a o : NGramItem string,
      str_item_eq a o = true <-> same_tokens (items_ a) (items_ o))
  /\ (forall (i j : nat) (w : list Z),
      int_item_eq (mkNGramItem i (rev w)) (mkNGramItem j w) = false
      <-> rev w <> w)
  /\ (forall (i j : nat) (w : list string),
      str_item_eq (mkNGramItem i (rev w)) (mkNGramItem j w) = false
      <-> rev w <> w).
Proof.
  split; [| split; [| split]].
  - intros a o. rewrite int_item_eq_spec, same_tokens_eq. tauto.
  - intros a o. rewrite str_item_eq_spec, same_tokens_eq. tauto.
  - intros i j w. rewrite <- not_true_iff_false, int_item_eq_spec. tauto.
  - intros i j w. rewrite <- not_true_iff_false, str_item_eq_spec. tauto.
Qed.

(* ===================================================================== *)
(** ** The dictionary: [find], [emplace] and [Emplace] *)
(* ===================================================================== *)

Lemma chunk_0 {T : Type} (first : list T) (ngram_size : nat) :
  chunk first ngram_size 0 = take ngram_size first.
Proof. reflexivity. Qed.

Lemma chunk_S {T : Type} (first : list T) (ngram_size k : nat) :
  chunk first ngram_size (S k) = chunk (drop ngram_size first) ngram_size k.
Proof.
  unfold chunk. rewrite drop_drop. reflexivity.
Qed.

Section PoolSetFacts.
Context {T : Type}.
Variable item_eq : NGramItem T -> NGramItem T -> bool.
Hypothesis item_eq_spec :
  forall a o, item_eq a o = true <-> items_ a = items_ o.

Lemma set_find_Some c i e :
  set_find item_eq c i = Some e -> In e c /\ items_ e = items_ i.
Proof.
  induction c as [| x c IH]; simpl; [discriminate |].
  destruct (item_eq x i) eqn:Hx.
  - intros [= <-]. split; [auto | now apply item_eq_spec].
  - intros H. destruct (IH H). auto.
Qed.

Lemma set_find_None c i :
  set_find item_eq c i = None -> ~ holds c (items_ i).
Proof.
  induction c as [| x c IH]; simpl; intros H [e [Hin He]]; [contradiction |].
  destruct (item_eq x i) eqn:Hx; [discriminate |].
  destruct Hin as [-> | Hin].
  - apply item_eq_spec in He. congruence.
  - apply (IH H). exists e. auto.
Qed.

Lemma set_find_holds c i :
  holds c (items_ i) -> exists e, set_find item_eq c i = Some e.
Proof.
  intros H. destruct (set_find item_eq c i) eqn:Hf; [eauto |].
  now apply set_find_None in Hf.
Qed.

Lemma set_emplace_length_le c e :
  (length (set_emplace item_eq c e) <= S (length c))%nat.
Proof.
  unfold set_emplace. destruct (set_find item_eq c e).
  - lia.
  - rewrite length_app. simpl. lia.
Qed.

Lemma set_emplace_present c e :
  holds c (items_ e) -> set_emplace item_eq c e = c.
Proof.
  intros H. unfold set_emplace.
  destruct (set_find_holds c e H) as [x ->]. reflexivity.
Qed.

Lemma set_emplace_mono c e w :
  holds c w -> holds (set_emplace item_eq c e) w.
Proof.
  intros [x [Hin Hx]]. unfold set_emplace.
  destruct (set_find item_eq c e); exists x; split; auto.
  apply in_or_app. auto.
Qed.

Lemma set_emplace_holds c e : holds (set_emplace item_eq c e) (items_ e).
Proof.
  unfold set_emplace. destruct (set_find item_eq c e) as [x |] eqn:Hf.
  - apply set_find_Some in Hf. exists x. tauto.
  - exists e. split; [apply in_or_app; simpl; auto | reflexivity].
Qed.

Lemma Emplace_length_le first ngrams ngram_size ngram_id c :
  (length (snd (Emplace item_eq first ngrams ngram_size ngram_id c))
   <= length c + ngrams)%nat.
Proof.
  revert first ngram_id c.
  induction ngrams as [| n IH]; intros first ngram_id c; simpl; [lia |].
  etransitivity; [apply IH |].
  pose proof (set_emplace_length_le c
                (mkNGramItem ngram_id (take ngram_size first))). lia.
Qed.

(** The ids handed out are consecutive. *)
Lemma Emplace_ngram_id first ngrams ngram_size ngram_id c :
  fst (Emplace item_eq first ngrams ngram_size ngram_id c)
  = (ngram_id + ngrams)%nat.
Proof.
  revert first ngram_id c.
  induction ngrams as [| n IH]; intros first ngram_id c; simpl; [lia |].
  rewrite IH. lia.
Qed.

(** A chunk whose tokens the set already holds does not grow it. *)
Lemma Emplace_present first ngrams ngram_size ngram_id c k :
  (k < ngrams)%nat ->
  holds c (chunk first ngram_size k) ->
  (length (snd (Emplace item_eq first ngrams ngram_size ngram_id c))
   < length c + ngrams)%nat.
Proof.
  revert first ngram_id c k.
  induction ngrams as [| n IH]; intros first ngram_id c k Hk Hc; [lia |].
  simpl. destruct k as [| k].
  - rewrite chunk_0 in Hc. rewrite set_emplace_present by exact Hc.
    pose proof (Emplace_length_le (drop ngram_size first) n ngram_size
                  (S ngram_id) c). lia.
  - rewrite chunk_S in Hc.
    set (c' := set_emplace item_eq c _).
    assert (Hc' : holds c' (chunk (drop ngram_size first) ngram_size k))
      by (apply set_emplace_mono; exact Hc).
    pose proof (IH (drop ngram_size first) (S ngram_id) c' k
                  ltac:(lia) Hc') as Hlt.
    pose proof (set_emplace_length_le c
                  (mkNGramItem ngram_id (take ngram_size first))) as Hle.
    fold c' in Hle. lia.
Qed.

(** Two chunks with the same tokens: the set grows by less than the
    number of chunks. *)
Lemma Emplace_repeated first ngrams ngram_size ngram_id c j k :
  (j < k < ngrams)%nat ->
  chunk first ngram_size j = chunk first ngram_size k ->
  (length (snd (Emplace item_eq first ngrams ngram_size ngram_id c))
   < length c + ngrams)%nat.
Proof.
  revert first ngram_id c j k.
  induction ngrams as [| n IH]; intros first ngram_id c j k Hjk Heq; [lia |].
  simpl. set (c' := set_emplace item_eq c _).
  pose proof (set_emplace_length_le c
                (mkNGramItem ngram_id (take ngram_size first))) as Hle.
  fold c' in Hle.
  destruct k as [| k]; [lia |]. rewrite chunk_S in Heq.
  destruct j as [| j].
  - rewrite chunk_0 in Heq.
    assert (Hc' : holds c' (chunk (drop ngram_size first) ngram_size k)).
    { rewrite <- Heq.
      apply (set_emplace_holds c
               (mkNGramItem ngram_id (take ngram_size first))). }
    pose proof (Emplace_present (drop ngram_size first) n ngram_size
                  (S ngram_id) c' k ltac:(lia) Hc'). lia.
  - rewrite chunk_S in Heq.
    pose proof (IH (drop ngram_size first) (S ngram_id) c' j k
                  ltac:(lia) Heq). lia.
Qed.
End PoolSetFacts.

(* ===================================================================== *)
(** ** The pool loop: repeated n-grams *)
(* ===================================================================== *)

Section BuildFacts.
Variable ngram_counts : list Z.
Variable pool_strings : list string.
Variable pool_int64s : list Z.

Let step := build_step ngram_counts pool_strings pool_int64s.

Lemma build_step_next (i : nat) (st : build_state) :
  (i < length ngram_counts)%nat ->
  config_error (step i st)
  \/ exists st', step i st = Ok st'
                 /\ b_ngram_size st' = S (b_ngram_size st).
Proof.
  intros Hi. apply lookup_lt_is_Some in Hi. destruct Hi as [c Hc].
  unfold step, build_step. rewrite Hc.
  destruct (_ && _); cbn [ENFORCE bind]; [| left; eexists; reflexivity].
  destruct (_ >? 0); [| right; eexists; split; reflexivity].
  destruct (_ mod _ =? 0); cbn [ENFORCE bind];
    [| left; eexists; reflexivity].
  destruct (is_empty pool_strings).
  - destruct (Emplace int_item_eq _ _ _ _ _) as [ngram_id int_set].
    destruct (_ =? _)%nat; cbn [ENFORCE bind];
      [right; eexists; split; reflexivity | left; eexists; reflexivity].
  - destruct (Emplace str_item_eq _ _ _ _ _) as [ngram_id str_set].
    destruct (_ =? _)%nat; cbn [ENFORCE bind];
      [right; eexists; split; reflexivity | left; eexists; reflexivity].
Qed.

(** The arithmetic of one segment with room for the chunk [k]. *)
Lemma chunks_in_segment (start_idx end_idx : Z) (i k : nat) :
  start_idx + (Z.of_nat k + 1) * Z.of_nat (S i) <= end_idx ->
  (end_idx - start_idx >? 0) = true
  /\ (k < Z.to_nat ((end_idx - start_idx) / Z.of_nat (S i)))%nat.
Proof.
  intros H. split.
  - apply Z.gtb_lt. nia.
  - assert (Z.of_nat k + 1 <= (end_idx - start_idx) / Z.of_nat (S i)).
    { apply Z.div_le_lower_bound; lia. }
    lia.
Qed.

Lemma build_step_repeated_int (i j k : nat) (st : build_state) :
  is_empty pool_strings = true ->
  b_ngram_size st = S i ->
  repeated_chunk ngram_counts pool_int64s i j k ->
  config_error (step i st).
Proof.
  intros Hempty Hsize (start_idx & end_idx & Hseg & Hjk & Hfit & Heq).
  unfold segment in Hseg.
  destruct (ngram_counts !! i) as [c |] eqn:Hc; [| discriminate].
  injection Hseg as Hs He.
  unfold step, build_step, pool_total_items.
  rewrite Hc, Hempty, Hsize, Hs, He.
  destruct (chunks_in_segment start_idx end_idx i k Hfit) as [Hpos Hk].
  rewrite Hpos.
  destruct (_ && _); cbn [ENFORCE bind]; [| eexists; reflexivity].
  destruct (_ mod _ =? 0); cbn [ENFORCE bind]; [| eexists; reflexivity].
  pose proof (Emplace_repeated int_item_eq int_item_eq_spec
                (drop (Z.to_nat start_idx) pool_int64s)
                (Z.to_nat ((end_idx - start_idx) / Z.of_nat (S i)))
                (S i) (b_ngram_id st) (b_int_set st) j k
                ltac:(lia) Heq) as Hlt.
  destruct (Emplace int_item_eq _ _ _ _ _) as [ngram_id int_set].
  cbn [snd] in Hlt.
  destruct (Nat.eqb_spec
              (length (b_int_set st)
               + Z.to_nat ((end_idx - start_idx) / Z.of_nat (S i)))
              (length int_set)) as [Hlen | Hlen]; [lia |].
  cbn [ENFORCE bind]. eexists. reflexivity.
Qed.

Lemma build_step_repeated_str (i j k : nat) (st : build_state) :
  is_empty pool_strings = false ->
  b_ngram_size st = S i ->
  repeated_chunk ngram_counts pool_strings i j k ->
  config_error (step i st).
Proof.
  intros Hempty Hsize (start_idx & end_idx & Hseg & Hjk & Hfit & Heq).
  unfold segment in Hseg.
  destruct (ngram_counts !! i) as [c |] eqn:Hc; [| discriminate].
  injection Hseg as Hs He.
  unfold step, build_step, pool_total_items.
  rewrite Hc, Hempty, Hsize, Hs, He.
  destruct (chunks_in_segment start_idx end_idx i k Hfit) as [Hpos Hk].
  rewrite Hpos.
  destruct (_ && _); cbn [ENFORCE bind]; [| eexists; reflexivity].
  destruct (_ mod _ =? 0); cbn [ENFORCE bind]; [| eexists; reflexivity].
  pose proof (Emplace_repeated str_item_eq str_item_eq_spec
                (drop (Z.to_nat start_idx) pool_strings)
                (Z.to_nat ((end_idx - start_idx) / Z.of_nat (S i)))
                (S i) (b_ngram_id st) (b_str_set st) j k
                ltac:(lia) Heq) as Hlt.
  destruct (Emplace str_item_eq _ _ _ _ _) as [ngram_id str_set].
  cbn [snd] in Hlt.
  destruct (Nat.eqb_spec
              (length (b_str_set st)
               + Z.to_nat ((end_idx - start_idx) / Z.of_nat (S i)))
              (length str_set)) as [Hlen | Hlen]; [lia |].
  cbn [ENFORCE bind]. eexists. reflexivity.
Qed.

Lemma build_from_repeated (i j k : nat) :
  active_pool_repeats ngram_counts pool_strings pool_int64s i j k ->
  forall (remaining i0 : nat) (st : build_state),
    (i0 + remaining = length ngram_counts)%nat ->
    (i0 <= i < i0 + remaining)%nat ->
    b_ngram_size st = S i0 ->
    config_error
      (build_from ngram_counts pool_strings pool_int64s remaining i0 st).
Proof.
  intros Hrep. induction remaining as [| r IH]; intros i0 st Hlen Hi Hsize.
  - lia.
  - cbn [build_from]. fold step.
    destruct (Nat.eq_dec i0 i) as [-> | Hne].
    + assert (Hfail : config_error (step i st)).
      { unfold active_pool_repeats in Hrep.
        destruct (is_empty pool_strings) eqn:Hempty.
        - eapply build_step_repeated_int; eauto.
        - eapply build_step_repeated_str; eauto. }
      destruct Hfail as [msg ->]. eexists. reflexivity.
    + destruct (build_step_next i0 st ltac:(lia))
        as [[msg ->] | (st' & -> & Hsize')].
      * eexists. reflexivity.
      * cbn [bind]. apply IH; lia.
Qed.

Lemma build_loop_repeated (i j k : nat) :
  (i < length ngram_counts)%nat ->
  active_pool_repeats ngram_counts pool_strings pool_int64s i j k ->
  config_error (build_loop ngram_counts pool_strings pool_int64s).
Proof.
  intros Hi Hrep. unfold build_loop.
  apply (build_from_repeated i j k Hrep); simpl; lia.
Qed.
End BuildFacts.

Lemma Ngram_repeated_chunk (info : OpKernelInfo) (i j k : nat) :
  pool_repeats info i j k -> config_error (Ngram info).
Proof.
  destruct info as [mode M N S all counts indexes weights ps pi].
  unfold pool_repeats.
  cbn [attr_ngram_counts attr_pool_strings attr_pool_int64s].
  destruct counts as [counts |]; [| destruct ps, pi; contradiction].
  intros Hrep.
  assert (Hi : (i < length counts)%nat).
  { assert (Hseg : exists T (pool : list T), repeated_chunk counts pool i j k).
    { destruct ps as [ps |]; [eauto |]. destruct pi as [pi |]; [eauto |].
      contradiction. }
    destruct Hseg as (T & pool & s & e & Hseg & _).
    unfold segment in Hseg.
    destruct (counts !! i) eqn:Hc; [| discriminate].
    eapply lookup_lt_Some; eauto. }
  unfold Ngram.
  cbn [attr_mode attr_M attr_N attr_S attr_all attr_ngram_counts
       attr_ngram_indexes attr_weights attr_pool_strings attr_pool_int64s].
  destruct ps as [[| p ps] |].
  - step_checks.
  - step_checks;
      destruct (build_loop_repeated counts (p :: ps) [] i j k Hi Hrep)
        as [msg ->]; eexists; reflexivity.
  - destruct pi as [pi |]; [| contradiction].
    step_checks;
      destruct (build_loop_repeated counts [] pi i j k Hi Hrep)
        as [msg ->]; eexists; reflexivity.
Qed.

(** C7. A pool with two chunks of the same tokens inside one length
    segment (the chunks [j < k] of the segment [i], for string and for
    integer pools) makes construction fail with a ConfigError; no
    dictionary is returned. For the pools (1, 3, 1, 3) and (a, b, a, b)
    read as bigrams, the error is the one of the duplicate check. *)
Theorem C7_repeated_ngram_is_refused :
  (forall (info : OpKernelInfo) (i j k : nat),
      pool_repeats info i j k -> config_error (Ngram info))
  /\ Ngram repeated_int_bigram
     = Fail (EnforceFailed "pool_int64s duplicate 2-grams detected")
  /\ Ngram repeated_string_bigram
     = Fail (EnforceFailed "poll_strings duplicate 2-grams detected").
Proof.
  split; [exact Ngram_repeated_chunk | split; reflexivity].
Qed.

Lemma C7_repeated_ngram_is_refused_witness :
  config_error (Ngram repeated_string_bigram)
  /\ config_error (Ngram repeated_int_bigram).
Proof.
  split.
  - apply (proj1 C7_repeated_ngram_is_refused repeated_string_bigram
             1%nat 0%nat 1%nat).
    exists 0, 4. repeat split; simpl; lia.
  - apply (proj1 C7_repeated_ngram_is_refused repeated_int_bigram
             1%nat 0%nat 1%nat).
    exists 0, 4. repeat split; simpl; lia.
Defined.

(* ===================================================================== *)
(** ** The extractor: which windows are probed *)
(* ===================================================================== *)

Lemma probe_all_app {T K : Type} (token : TokenType T K) (impl : Impl)
    (ws1 ws2 : list (list T)) (frequencies : list Z) :
  probe_all token impl (ws1 ++ ws2) frequencies
  = do frequencies' <- probe_all token impl ws1 frequencies;
    probe_all token impl ws2 frequencies'.
Proof.
  revert frequencies. induction ws1 as [| w ws1 IH]; intros f; simpl.
  - reflexivity.
  - destruct (probe token impl _ f); simpl; auto.
Qed.

Section ExtractorFacts.
Context {T K : Type}.
Variable token : TokenType T K.
Variable impl : Impl.
Variable input : list T.

Local Abbreviation total_items := (size input).

Lemma deref_in_range (p : Z) :
  0 <= p < size input ->
  exists t, input !! Z.to_nat p = Some t /\ deref input p = Ok t.
Proof.
  intros Hp. unfold deref.
  destruct (Z.ltb_spec p 0); [lia |].
  destruct (lookup_lt_is_Some_2 input (Z.to_nat p)) as [t Ht].
  { unfold size in Hp. lia. }
  exists t. rewrite Ht. auto.
Qed.

(** The inner loop gathers the tokens at distance [si], as long as they
    lie before [ngram_end]. *)
Lemma collect_tokens (si p : Z) (k : nat) :
  1 <= si -> 0 <= p ->
  forall (a fuel : nat) (ngram_end ngram_item : Z) (sample : NGramItem K),
    ngram_item = p + si * Z.of_nat a ->
    ngram_end = p + si * (Z.of_nat a + Z.of_nat k - 1) + 1 ->
    (k = 0%nat \/ ngram_end <= size input) ->
    (k < fuel)%nat ->
    collect token input fuel si ngram_end ngram_item sample
    = Ok (mkNGramItem (id_ sample)
            (items_ sample
             ++ map (to_key token)
                  (omap (fun j : nat => input !! Z.to_nat (p + si * Z.of_nat j))
                     (seq a k)))).
Proof.
  intros Hsi Hp. induction k as [| k IH];
    intros a fuel ngram_end ngram_item sample Hitem Hend Hfit Hfuel;
    (destruct fuel as [| fuel]; [lia |]); cbn [collect].
  - destruct (Z.ltb_spec ngram_item ngram_end); [nia |].
    simpl. rewrite app_nil_r. destruct sample; reflexivity.
  - destruct (Z.ltb_spec ngram_item ngram_end); [| nia].
    destruct Hfit as [| Hfit]; [discriminate |].
    destruct (deref_in_range ngram_item ltac:(nia)) as (t & Ht & ->).
    cbn [bind].
    rewrite (IH (S a) fuel ngram_end (ngram_item + si)
               (AddItem sample (to_key token t))) by lia.
    cbn [seq omap list_omap]. rewrite <- Hitem, Ht.
    cbn [AddItem id_ items_ map]. rewrite <- app_assoc. reflexivity.
Qed.

(** One window, from the cleared sample. *)
Lemma collect_window (ni si p : Z) :
  1 <= ni -> 1 <= si -> 0 <= p ->
  p + window_span ni si <= size input ->
  collect token input (S (Z.to_nat (p + si * (ni - 1) + 1 - p)))
    si (p + si * (ni - 1) + 1) p cleared_sample
  = Ok (mkNGramItem 0%nat (map (to_key token) (window_at input ni si p))).
Proof.
  intros Hni Hsi Hp Hfit. unfold window_span in Hfit.
  rewrite (collect_tokens si p (Z.to_nat ni) Hsi Hp 0%nat); try nia.
  reflexivity.
Qed.

(** The starts of one length and distance, from [ngram_start] on. *)
Lemma window_loop_from (ni si : Z) :
  1 <= ni -> 1 <= si ->
  forall (m fuel : nat) (ngram_start : Z) (frequencies : list Z),
    0 <= ngram_start ->
    m = Z.to_nat (size input - window_span ni si + 1 - ngram_start) ->
    (m < fuel)%nat ->
    window_loop token impl input total_items fuel ni si ngram_start frequencies
    = probe_all token impl
        (map (window_at input ni si)
           (seqZ ngram_start
              (size input - window_span ni si + 1 - ngram_start)))
        frequencies.
Proof.
  intros Hni Hsi. unfold window_span.
  induction m as [| m IH]; intros fuel p f Hp Hm Hfuel;
    (destruct fuel as [| fuel]; [lia |]); cbn [window_loop];
    unfold end_data.
  - rewrite seqZ_nil by lia. simpl.
    destruct (Z.ltb_spec p (size input)); [| reflexivity].
    destruct (Z.gtb_spec (p + si * (ni - 1) + 1) (size input));
      [reflexivity | lia].
  - rewrite seqZ_cons by lia.
    destruct (Z.ltb_spec p (size input)); [| nia].
    destruct (Z.gtb_spec (p + si * (ni - 1) + 1) (size input)); [lia |].
    rewrite collect_window by (unfold window_span; lia).
    cbn [bind map probe_all].
    destruct (probe token impl _ f) as [f' |]; cbn [bind]; [| reflexivity].
    rewrite (IH fuel (p + 1) f') by lia.
    do 3 f_equal; lia.
Qed.

Lemma window_loop_windows (ni si : Z) (frequencies : list Z) :
  1 <= ni -> 1 <= si ->
  window_loop token impl input total_items (S (Z.to_nat total_items))
    ni si 0 frequencies
  = probe_all token impl (windows input ni si) frequencies.
Proof.
  intros Hni Hsi.
  rewrite (window_loop_from ni si Hni Hsi
             (Z.to_nat (size input - window_span ni si + 1 - 0)));
    try lia.
  - unfold windows, window_starts. do 3 f_equal. lia.
  - unfold window_span. nia.
Qed.

(** The distances from [si] to [S]. *)
Lemma skip_loop_from (ni S : Z) :
  1 <= ni ->
  forall (m fuel : nat) (si : Z) (frequencies : list Z),
    1 <= si ->
    m = Z.to_nat (S - si + 1) ->
    (m < fuel)%nat ->
    skip_loop token impl input total_items fuel ni S si frequencies
    = probe_all token impl
        (concat (map (windows input ni) (seqZ si (S - si + 1))))
        frequencies.
Proof.
  intros Hni. induction m as [| m IH]; intros fuel si f Hsi Hm Hfuel;
    (destruct fuel as [| fuel]; [lia |]); cbn [skip_loop].
  - rewrite seqZ_nil by lia.
    destruct (Z.leb_spec si S); [lia | reflexivity].
  - rewrite seqZ_cons by lia.
    destruct (Z.leb_spec si S); [| lia].
    cbn [map concat]. rewrite probe_all_app.
    rewrite window_loop_windows by lia.
    destruct (probe_all token impl (windows input ni si) f) as [f' |];
      cbn [bind]; [| reflexivity].
    rewrite (IH fuel (si + 1) f') by lia.
    do 4 f_equal; lia.
Qed.

(** The unigram loop, from the position [first] on. *)
Lemma unigram_loop_from :
  forall (m fuel : nat) (first : Z) (frequencies : list Z),
    0 <= first <= size input ->
    m = Z.to_nat (size input - first) ->
    (m < fuel)%nat ->
    unigram_loop token impl input total_items fuel first frequencies
    = probe_all token impl
        (map (fun t => [t]) (drop (Z.to_nat first) input)) frequencies.
Proof.
  induction m as [| m IH]; intros fuel p f Hp Hm Hfuel;
    (destruct fuel as [| fuel]; [lia |]); cbn [unigram_loop];
    unfold end_data.
  - assert (p = size input) as -> by lia.
    rewrite Z.eqb_refl. cbn [negb].
    rewrite drop_ge by (unfold size; lia). reflexivity.
  - destruct (Z.eqb_spec p (size input)); [lia |]. cbn [negb].
    destruct (deref_in_range p ltac:(lia)) as (t & Ht & ->).
    rewrite (drop_S _ _ _ Ht). cbn [bind map probe_all].
    destruct (probe token impl _ f) as [f' |]; cbn [bind]; [| reflexivity].
    rewrite (IH fuel (p + 1) f') by lia.
    do 3 f_equal. lia.
Qed.

(** The lengths from [ni] to [N]. *)
Lemma length_loop_from (N S : Z) :
  forall (m fuel : nat) (ni : Z) (frequencies : list Z),
    1 <= ni ->
    m = Z.to_nat (N - ni + 1) ->
    (m < fuel)%nat ->
    length_loop token impl input total_items fuel N S ni frequencies
    = probe_all token impl
        (concat (map (windows_of_length input S) (seqZ ni (N - ni + 1))))
        frequencies.
Proof.
  induction m as [| m IH]; intros fuel ni f Hni Hm Hfuel;
    (destruct fuel as [| fuel]; [lia |]); cbn [length_loop].
  - rewrite seqZ_nil by lia.
    destruct (Z.leb_spec ni N); [lia | reflexivity].
  - rewrite seqZ_cons by lia.
    destruct (Z.leb_spec ni N); [| lia].
    cbn [map concat]. rewrite probe_all_app.
    assert (Hlen :
      (if ni =? 1
       then unigram_loop token impl input total_items
              (Datatypes.S (Z.to_nat total_items)) 0 f
       else skip_loop token impl input total_items
              (Datatypes.S (Z.to_nat S)) ni S 1 f)
      = probe_all token impl (windows_of_length input S ni) f).
    { unfold windows_of_length. destruct (Z.eqb_spec ni 1).
      - rewrite (unigram_loop_from (Z.to_nat (size input)));
          unfold size; try lia. reflexivity.
      - rewrite (skip_loop_from ni S ltac:(lia) (Z.to_nat (S - 1 + 1)));
          try lia. replace (S - 1 + 1) with S by lia. reflexivity. }
    rewrite Hlen.
    destruct (probe_all token impl (windows_of_length input S ni) f)
      as [f' |]; cbn [bind]; [| reflexivity].
    rewrite (IH fuel (ni + 1) f') by lia.
    do 4 f_equal; lia.
Qed.

(** The extractor probes the windows of [all_windows], in their order. *)
Lemma ComputeImpl_frequencies_windows :
  1 <= (if all_ impl then M_ impl else N_ impl) ->
  ComputeImpl_frequencies token impl input total_items
  = probe_all token impl
      (all_windows input (if all_ impl then M_ impl else N_ impl)
         (N_ impl) (S_ impl + 1))
      (replicate (GetPoolSize token impl) 0).
Proof.
  intros Hn. unfold ComputeImpl_frequencies, all_windows.
  apply (length_loop_from (N_ impl) (S_ impl + 1)
           (Z.to_nat (N_ impl - (if all_ impl then M_ impl else N_ impl) + 1)));
    lia.
Qed.
End ExtractorFacts.

(* ===================================================================== *)
(** ** The output encoder *)
(* ===================================================================== *)

Lemma bind_Ok {A : Type} (m : res A) : (do a <- m; Ok a) = m.
Proof. destruct m; reflexivity. Qed.

Section OutputResultFacts.
Variable impl : Impl.
Variable frequences : list Z.

(** Where the [switch] lands: each label selects its own statement, and
    the [break]s keep the statements apart. *)
Lemma OutputResult_switch (output_data : list float) :
  switch Mode_eqb (mode_ impl) (OutputResult_body impl frequences) output_data
  = match mode_ impl with
    | kTF => case_kTF frequences output_data
    | kIDF => case_kIDF impl frequences output_data
    | kTFIDF => case_kTFIDF impl frequences output_data
    | kNone => Fail (AssertFailed "false")
    end.
Proof.
  unfold switch, OutputResult_body.
  destruct (mode_ impl); cbn [jump_case jump_default existsb Mode_eqb orb
    case_labels default_label run_from stmt leave];
    try apply bind_Ok; reflexivity.
Qed.

Lemma weighted_loop_zip (f : Z -> float -> float) :
  length (weights_ impl) = length frequences ->
  forall (remaining i : nat) (output_data : list float),
    (i + remaining = length frequences)%nat ->
    weighted_loop impl frequences f remaining i output_data
    = Ok (output_data
          ++ zip_with f (drop i frequences) (drop i (weights_ impl))).
Proof.
  intros Hw. induction remaining as [| r IH]; intros i out Hi;
    cbn [weighted_loop].
  - rewrite (drop_ge frequences) by lia. simpl. now rewrite app_nil_r.
  - destruct (lookup_lt_is_Some_2 frequences i ltac:(lia)) as [fi Hfi].
    destruct (lookup_lt_is_Some_2 (weights_ impl) i ltac:(lia)) as [wi Hwi].
    rewrite Hfi, Hwi, (drop_S _ _ _ Hfi), (drop_S _ _ _ Hwi).
    rewrite IH by lia. simpl. now rewrite <- app_assoc.
Qed.

Lemma weighted_loop_all (f : Z -> float -> float) :
  length (weights_ impl) = length frequences ->
  weighted_loop impl frequences f (length frequences) 0 []
  = Ok (zip_with f frequences (weights_ impl)).
Proof.
  intros Hw. now rewrite weighted_loop_zip by (auto; lia).
Qed.

Lemma lookup_weighted (f : Z -> float -> float) (i : nat) (count : Z) :
  length (weights_ impl) = length frequences ->
  frequences !! i = Some count ->
  exists w, weights_ impl !! i = Some w
            /\ zip_with f frequences (weights_ impl) !! i = Some (f count w).
Proof.
  intros Hw Hi.
  destruct (lookup_lt_is_Some_2 (weights_ impl) i) as [w Hwi].
  { apply lookup_lt_Some in Hi. lia. }
  exists w. split; [exact Hwi |].
  rewrite lookup_zip_with, Hi, Hwi. reflexivity.
Qed.

(** What the encoder writes, when the weights are absent or as many as
    the frequencies. *)
Lemma OutputResult_data :
  mode_ impl <> kNone ->
  weights_ impl = [] \/ length (weights_ impl) = length frequences ->
  exists output_data,
    switch Mode_eqb (mode_ impl) (OutputResult_body impl frequences) []
    = Ok output_data
    /\ length output_data = length frequences
    /\ forall (i : nat) (count : Z),
         frequences !! i = Some count ->
         output_data !! i
         = Some (spec_encode (mode_ impl) (weights_ impl !! i) count).
Proof.
  intros Hmode Hw. rewrite OutputResult_switch.
  assert (Hmap : forall g : Z -> float,
    length (map g frequences) = length frequences
    /\ forall i count, frequences !! i = Some count ->
                       map g frequences !! i = Some (g count)).
  { intros g. split; [apply length_map |].
    intros i count Hi. change (map g frequences) with (g <$> frequences).
    now rewrite list_lookup_fmap, Hi. }
  assert (Hzip : forall g : Z -> float -> float,
    length (weights_ impl) = length frequences ->
    length (zip_with g frequences (weights_ impl)) = length frequences).
  { intros g Hlen. rewrite length_zip_with. lia. }
  destruct (mode_ impl) eqn:Hm; [contradiction | | |].
  - (* kTF *)
    eexists. split; [reflexivity |]. destruct (Hmap float_of_uint32). auto.
  - (* kIDF *)
    unfold case_kIDF, each.
    destruct (weights_ impl) as [| w0 ws] eqn:Hws; cbn [is_empty negb].
    + eexists. split; [reflexivity |]. simpl.
      destruct (Hmap (fun f => if f >? 0 then float_one else float_zero)).
      auto.
    + destruct Hw as [| Hlen]; [discriminate |].
      rewrite <- Hws in *.
      rewrite Hlen, Nat.eqb_refl. cbn [ASSERT bind].
      rewrite weighted_loop_all by exact Hlen.
      eexists. split; [reflexivity |]. split; [auto |].
      intros i count Hi.
      destruct (lookup_weighted
                  (fun fi wi => if fi >? 0 then wi else float_zero)
                  i count Hlen Hi) as (w & -> & ->).
      reflexivity.
  - (* kTFIDF *)
    unfold case_kTFIDF, each.
    destruct (weights_ impl) as [| w0 ws] eqn:Hws; cbn [is_empty negb].
    + eexists. split; [reflexivity |]. simpl.
      destruct (Hmap float_of_uint32). auto.
    + destruct Hw as [| Hlen]; [discriminate |].
      rewrite <- Hws in *.
      rewrite Hlen, Nat.eqb_refl. cbn [ASSERT bind].
      rewrite weighted_loop_all by exact Hlen.
      eexists. split; [reflexivity |]. split; [auto |].
      intros i count Hi.
      destruct (lookup_weighted
                  (fun fi wi => float_mul (float_of_uint32 fi) wi)
                  i count Hlen Hi) as (w & -> & ->).
      reflexivity.
Qed.
End OutputResultFacts.

Lemma OutputResult_encodes
    (impl : Impl) (frequences : list Z) (ctx : OpKernelContext) :
  mode_ impl <> kNone ->
  weights_ impl = [] \/ length (weights_ impl) = length frequences ->
  exists output_data,
    OutputResult impl frequences ctx
    = Ok (mkCtx (Input0 ctx) (Some ([size frequences], output_data)))
    /\ length output_data = length frequences
    /\ forall (i : nat) (count : Z),
         frequences !! i = Some count ->
         output_data !! i
         = Some (spec_encode (mode_ impl) (weights_ impl !! i) count).
Proof.
  intros Hmode Hw.
  destruct (OutputResult_data impl frequences Hmode Hw)
    as (output_data & Hswitch & Hlen & Hentries).
  exists output_data. unfold OutputResult. rewrite Hswitch. auto.
Qed.

(** C5. The encoder treats the modes as separate cases: for every
    frequency vector (with no weights, or as many weights as
    frequencies), the output has one float per frequency, and the float
    at each slot is the entry of the encoding table for the mode: the
    count for TF; for IDF the weight (1.0 without weights) when the count
    is positive and 0 otherwise; for TFIDF the count times the weight,
    and the count without weights. *)
Theorem C5_encoder_follows_the_table
    (impl : Impl) (frequences : list Z) (ctx : OpKernelContext) :
  mode_ impl <> kNone ->
  weights_ impl = [] \/ length (weights_ impl) = length frequences ->
  exists output_data,
    OutputResult impl frequences ctx
    = Ok (mkCtx (Input0 ctx) (Some ([size frequences], output_data)))
    /\ length output_data = length frequences
    /\ forall (i : nat) (count : Z),
         frequences !! i = Some count ->
         output_data !! i
         = Some (spec_encode (mode_ impl) (weights_ impl !! i) count).
Proof. apply OutputResult_encodes. Qed.

Lemma C5_encoder_follows_the_table_witness :
  exists output_data,
    OutputResult idf_no_weights [0; 3] (mkCtx (tensor_of (Int64Data [6]) 1) None)
    = Ok (mkCtx (tensor_of (Int64Data [6]) 1) (Some ([2], output_data)))
    /\ length output_data = 2%nat
    /\ forall (i : nat) (count : Z),
         [0; 3] !! i = Some count ->
         output_data !! i = Some (spec_encode kIDF (@nil float !! i) count).
Proof.
  apply (C5_encoder_follows_the_table idf_no_weights [0; 3]
           (mkCtx (tensor_of (Int64Data [6]) 1) None)).
  - discriminate.
  - left. reflexivity.
Defined.

Example scenario_D :
  OutputResult idf_no_weights [0; 3] (mkCtx (tensor_of (Int64Data [6]) 1) None)
  = Ok (mkCtx (tensor_of (Int64Data [6]) 1)
          (Some ([2], [float_zero; float_one]))).
Proof. reflexivity. Qed.

(* ===================================================================== *)
(** ** The extractor: windows, frequencies and output length *)
(* ===================================================================== *)

Example skip_bigram_13_built : Ngram skip_bigram_13 = Ok skip_bigram_13_impl.
Proof. reflexivity. Qed.



Lemma IncrementCount_length (impl : Impl) (ngram_id : nat) (f f' : list Z) :
  IncrementCount impl ngram_id f = Ok f' -> length f' = length f.
Proof.
  unfold IncrementCount.
  destruct (ASSERT _ "ngram_id < ngram_indexes_.size()"); [| discriminate].
  cbn [bind]. destruct (ngram_indexes_ impl !! ngram_id); [| discriminate].
  destruct (ENFORCE _ _); [| discriminate]. cbn [bind].
  destruct (ASSERT _ _); [| discriminate]. cbn [bind].
  destruct (f !! _); [| discriminate].
  intros [= <-]. apply length_insert.
Qed.

Section FrequencyFacts.
Context {T K : Type}.
Variable token : TokenType T K.
Variable impl : Impl.

(** A lookup miss leaves the frequencies as they are and goes on. *)
Lemma probe_miss (sample : NGramItem K) (f : list Z) :
  Find token impl sample = None -> probe token impl sample f = Ok f.
Proof. unfold probe. intros ->. reflexivity. Qed.

Lemma probe_length (sample : NGramItem K) (f f' : list Z) :
  probe token impl sample f = Ok f' -> length f' = length f.
Proof.
  unfold probe. destruct (Find token impl sample).
  - apply IncrementCount_length.
  - now intros [= <-].
Qed.

Lemma probe_all_length (ws : list (list T)) :
  forall f f', probe_all token impl ws f = Ok f' -> length f' = length f.
Proof.
  induction ws as [| w ws IH]; intros f f'; cbn [probe_all].
  - now intros [= <-].
  - destruct (probe token impl _ f) as [f1 |] eqn:H1; [| discriminate].
    cbn [bind]. intros H2. apply IH in H2. apply probe_length in H1. lia.
Qed.

Lemma probe_all_miss (ws : list (list T)) (f : list Z) :
  Forall (fun w =>
            Find token impl (mkNGramItem 0%nat (map (to_key token) w)) = None)
    ws ->
  probe_all token impl ws f = Ok f.
Proof.
  induction 1 as [| w ws Hw _ IH]; cbn [probe_all]; [reflexivity |].
  rewrite probe_miss by exact Hw. exact IH.
Qed.
End FrequencyFacts.

(** Whatever the encoder returns has one float per frequency. *)
Lemma OutputResult_length (impl : Impl) (frequences : list Z)
    (ctx ctx' : OpKernelContext) :
  OutputResult impl frequences ctx = Ok ctx' ->
  exists output_data,
    ctx' = mkCtx (Input0 ctx) (Some ([size frequences], output_data))
    /\ length output_data = length frequences.
Proof.
  intros Hout.
  assert (Hmode : mode_ impl <> kNone).
  { intros Hm. unfold OutputResult in Hout.
    rewrite OutputResult_switch, Hm in Hout. discriminate. }
  destruct (weights_ impl) as [| w0 ws] eqn:Hws.
  - destruct (OutputResult_encodes impl frequences ctx Hmode)
      as (out & Heq & Hlen & _); [left; exact Hws |].
    rewrite Heq in Hout. injection Hout as <-. eauto.
  - destruct (Nat.eqb_spec (length frequences) (length (weights_ impl)))
      as [Hlen | Hlen].
    + destruct (OutputResult_encodes impl frequences ctx Hmode)
        as (out & Heq & Hlen' & _); [right; lia |].
      rewrite Heq in Hout. injection Hout as <-. eauto.
    + apply Nat.eqb_neq in Hlen. unfold OutputResult in Hout.
      rewrite OutputResult_switch in Hout.
      unfold case_kIDF, case_kTFIDF in Hout. rewrite Hws in Hout.
      cbn [is_empty negb] in Hout. rewrite <- Hws, Hlen in Hout.
      destruct (mode_ impl); try contradiction; try discriminate.
      cbn [bind] in Hout. injection Hout as <-.
      eexists. split; [reflexivity |]. apply length_map.
Qed.

(** The output of a call has as many floats as the dictionary has
    entries: the frequencies are sized by [GetPoolSize<T>()]. *)
Lemma ComputeImpl_output_length {T K : Type} (token : TokenType T K)
    (impl : Impl) (input : list T) (ctx ctx' : OpKernelContext) :
  1 <= (if all_ impl then M_ impl else N_ impl) ->
  ComputeImpl token impl input (size input) ctx = Ok ctx' ->
  exists output_data,
    Output0 ctx' = Some ([Z.of_nat (GetPoolSize token impl)], output_data)
    /\ length output_data = GetPoolSize token impl.
Proof.
  intros Hn. unfold ComputeImpl.
  rewrite ComputeImpl_frequencies_windows by exact Hn.
  destruct (probe_all token impl _ _) as [f |] eqn:Hf; [| discriminate].
  cbn [bind]. intros Hout.
  apply probe_all_length in Hf. rewrite length_replicate in Hf.
  destruct (OutputResult_length impl f ctx ctx' Hout) as (out & -> & Hlen).
  exists out. unfold size. rewrite Hf. cbn [Output0]. split; [reflexivity | lia].
Qed.

(** C4 (the code departs from the claim). The claim: the frequency vector
    and the output have max(outputSlotOf) + 1 entries. The code sizes the
    frequencies by the number of dictionary entries. With the unigram 5
    on output slot 2, which construction accepts, the claim asks for 3
    entries: on the input (6) the output has one entry, and on the input
    (5) the kernel's own assertion
    [static_cast<size_t>(output_idx) < frequencies.size()] fails. *)
Theorem C4_output_sized_by_dictionary :
  Ngram unigram_5_slot_2 = Ok unigram_5_slot_2_impl
  /\ ComputeImpl_frequencies token_int64 unigram_5_slot_2_impl [6] 1 = Ok [0]
  /\ outcome (run unigram_5_slot_2 (tensor_of (Int64Data [6]) 1))
     = Ok (mkStatus OK "", Some ([1], [float_zero]))
  /\ run unigram_5_slot_2 (tensor_of (Int64Data [5]) 1)
     = Fail (AssertFailed
               "static_cast<size_t>(output_idx) < frequencies.size()").
Proof. repeat split. Qed.

(* ===================================================================== *)
(** ** The dispatch on the element type *)
(* ===================================================================== *)

(** C9. A call on a tensor whose element type is none of int32, int64
    and string returns the status INVALID_ARGUMENT and leaves the context
    as it was: no output is written. The kernel state is an argument that
    [Compute] only reads, so the dictionary is the same afterwards. A
    lookup miss is not an error: the probe returns the frequencies as
    they were, and an extraction in which every window misses ends
    normally with all counts zero (for a kernel with N and S + 1 in the
    range where the offsets of the loops are the integers of the
    machine). *)
Theorem C9_unsupported_type_and_misses
    {T K : Type} (token : TokenType T K) (impl : Impl) :
  (forall (ctx : OpKernelContext) (elem_type : string),
      Data (Input0 ctx) = OtherData elem_type ->
      Compute impl ctx
      = Ok (mkStatus INVALID_ARGUMENT "Invalid type of the input argument", ctx))
  /\ (forall (sample : NGramItem K) (frequencies : list Z),
      Find token impl sample = None ->
      probe token impl sample frequencies = Ok frequencies)
  /\ (forall input : list T,
      1 <= (if all_ impl then M_ impl else N_ impl) ->
      offsets_in_range impl ->
      Forall (fun w =>
                Find token impl (mkNGramItem 0%nat (map (to_key token) w)) = None)
        (all_windows input (if all_ impl then M_ impl else N_ impl)
           (N_ impl) (S_ impl + 1)) ->
      ComputeImpl_frequencies token impl input (size input)
      = Ok (replicate (GetPoolSize token impl) 0)).
Proof.
  split; [| split].
  - intros ctx elem_type Hdata. unfold Compute. rewrite Hdata. reflexivity.
  - apply probe_miss.
  - intros input Hn _ Hmiss.
    rewrite ComputeImpl_frequencies_windows by exact Hn.
    apply probe_all_miss. exact Hmiss.
Qed.

Lemma C9_unsupported_type_and_misses_witness :
  Compute skip_bigram_13_impl (mkCtx (tensor_of (OtherData "float") 3) None)
  = Ok (mkStatus INVALID_ARGUMENT "Invalid type of the input argument",
        mkCtx (tensor_of (OtherData "float") 3) None)
  /\ probe token_int64 skip_bigram_13_impl (mkNGramItem 0 [1; 2]) [0] = Ok [0]
  /\ ComputeImpl_frequencies token_int64 skip_bigram_13_impl [1; 2; 4] 3
     = Ok [0].
Proof.
  split; [| split].
  - apply (proj1 (C9_unsupported_type_and_misses token_int64
                    skip_bigram_13_impl) _ "float").
    reflexivity.
  - apply (proj1 (proj2 (C9_unsupported_type_and_misses token_int64
                           skip_bigram_13_impl))).
    reflexivity.
  - apply (proj2 (proj2 (C9_unsupported_type_and_misses token_int64
                           skip_bigram_13_impl)) [1; 2; 4]).
    + simpl. lia.
    + split; simpl; lia.
    + repeat constructor.
Defined.

(* ===================================================================== *)
(** ** int32 tokens and int64 tokens *)
(* ===================================================================== *)



(** Two token types that build the same keys from the tokens of the input
    and search the same set run the same extraction. *)
Section TokenTypesAgree.
Context {T K : Type}.
Variables token1 token2 : TokenType T K.
Variable impl : Impl.
Variable input : list T.
Variable total_items : Z.

Hypothesis same_key :
  forall t, In t input -> to_key token1 t = to_key token2 t.
Hypothesis same_find :
  forall sample, Find token1 impl sample = Find token2 impl sample.
Hypothesis same_size : GetPoolSize token1 impl = GetPoolSize token2 impl.







End TokenTypesAgree.



(* ===================================================================== *)
(** ** Construction: what the final checks give *)
(* ===================================================================== *)

(** Case analysis on the checks that a successful construction passed. *)
Ltac passed_checks H :=
  repeat (cbn [GetAttr ENFORCE bind andb negb is_empty] in H;
          match type of H with
          | context [GetAttr ?a _] => is_var a; destruct a
          | context [ENFORCE ?c _] => destruct c eqn:?
          end);
  cbn [GetAttr ENFORCE bind andb negb is_empty] in H;
  try discriminate H.

Ltac loop_result H :=
  match type of H with
  | context [build_loop ?c ?s ?i] =>
      destruct (build_loop c s i) as [st |]; [| discriminate H]
  end.

(** With an integer pool, a kernel is built only when the dictionary has
    one entry per output slot. *)
Lemma Ngram_int_pool_size (info : OpKernelInfo) (impl : Impl) :
  attr_pool_strings info = None ->
  Ngram info = Ok impl ->
  length (int_set_ impl) = length (ngram_indexes_ impl).
Proof.
  destruct info as [mode M N S all counts indexes weights ps pi].
  cbn [attr_pool_strings]. intros -> H. unfold Ngram in H.
  cbn [attr_mode attr_M attr_N attr_S attr_all attr_ngram_counts
       attr_ngram_indexes attr_weights attr_pool_strings attr_pool_int64s] in H.
  passed_checks H;
    loop_result H;
    passed_checks H;
    injection H as <-; cbn [int_set_ ngram_indexes_];
    now apply Nat.eqb_eq.
Qed.

(** With a string pool, the check is on the number of pool tokens. *)
Lemma Ngram_string_pool_size (info : OpKernelInfo) (impl : Impl)
    (pool : list string) :
  attr_pool_strings info = Some pool ->
  Ngram info = Ok impl ->
  pool_strings_ impl = pool
  /\ length pool = length (ngram_indexes_ impl).
Proof.
  destruct info as [mode M N S all counts indexes weights ps pi].
  cbn [attr_pool_strings]. intros -> H. unfold Ngram in H.
  cbn [attr_mode attr_M attr_N attr_S attr_all attr_ngram_counts
       attr_ngram_indexes attr_weights attr_pool_strings attr_pool_int64s] in H.
  destruct pool as [| p pool].
  - passed_checks H.
  - passed_checks H;
      loop_result H;
      passed_checks H;
      injection H as <-; cbn [pool_strings_ ngram_indexes_];
      (split; [reflexivity | now apply Nat.eqb_eq]).
Qed.

(** The skip count has no part in what the constructor accepts. *)
Lemma Ngram_ignores_S (info : OpKernelInfo) (S S' : Z) :
  is_ok (Ngram (with_S info (Some S))) = is_ok (Ngram (with_S info (Some S'))).
Proof.
  destruct info as [mode M N S0 all counts indexes weights ps pi].
  unfold with_S, Ngram.
  cbn [attr_mode attr_M attr_N attr_S attr_all attr_ngram_counts
       attr_ngram_indexes attr_weights attr_pool_strings attr_pool_int64s].
  repeat (cbn [GetAttr ENFORCE bind andb negb is_empty is_ok];
          match goal with
          | |- context [GetAttr ?a _] => is_var a; destruct a
          | |- context [is_empty ?l] => is_var l; destruct l
          | |- context [ENFORCE ?c _] => destruct c
          | |- context [build_loop ?c ?s ?i] => destruct (build_loop c s i)
          end);
    reflexivity.
Qed.

(* ===================================================================== *)
(** ** The scenarios of the specification *)
(* ===================================================================== *)

(** Scenario A: unigrams 5, 6, 7; the input (5, 5, 6) gives (2, 1, 0). *)
Example scenario_A :
  outcome (run unigrams_567 (tensor_of (Int64Data [5; 5; 6]) 3))
  = Ok (mkStatus OK "", Some ([3], [float_two; float_one; float_zero])).
Proof. reflexivity. Qed.

(** Scenario C: Scenario B in mode TFIDF with the weight 2.0 gives (2.0). *)
Example scenario_C :
  outcome (run (mkInfo (Some "TFIDF") (Some 2) (Some 2) (Some 1) (Some 0)
                  (Some [0; 0]) (Some [0]) (Some [float_two]) None
                  (Some [1; 3]))
             (tensor_of (Int64Data [1; 2; 3]) 3))
  = Ok (mkStatus OK "", Some ([1], [float_two])).
Proof. reflexivity. Qed.

(** Scenario F: two weights for one output slot are refused. *)
Example scenario_F :
  Ngram (mkInfo (Some "TF") (Some 2) (Some 2) (Some 1) (Some 0)
           (Some [0; 0]) (Some [0]) (Some [float_two; float_one]) None
           (Some [1; 3]))
  = Fail (EnforceFailed "weights and indexes must have equal size").
Proof. reflexivity. Qed.

(* ===================================================================== *)
(** ** The dictionary as a set: insertion and lookup *)
(* ===================================================================== *)

Section PoolSetLookup.
Context {T : Type}.
Variable item_eq : NGramItem T -> NGramItem T -> bool.
Hypothesis item_eq_spec :
  forall a o, item_eq a o = true <-> items_ a = items_ o.

Lemma keys_distinct_unique (c : list (NGramItem T)) (x y : NGramItem T) :
  keys_distinct c -> In x c -> In y c -> items_ x = items_ y -> x = y.
Proof.
  unfold keys_distinct. induction c as [| e c IH]; simpl; [tauto |].
  intros Hnd Hx Hy Heq. inversion Hnd as [| ? ? Hnotin Hnd']; subst.
  destruct Hx as [-> | Hx], Hy as [-> | Hy]; auto.
  - exfalso. apply Hnotin. rewrite Heq. now apply in_map.
  - exfalso. apply Hnotin. rewrite <- Heq. now apply in_map.
Qed.

Lemma set_find_iff (c : list (NGramItem T)) (i e : NGramItem T) :
  keys_distinct c ->
  set_find item_eq c i = Some e <-> In e c /\ items_ e = items_ i.
Proof.
  intros Hnd. split; [apply (set_find_Some item_eq item_eq_spec) |].
  intros [Hin Heq].
  destruct (set_find_holds item_eq item_eq_spec c i) as [x Hx].
  { exists e. auto. }
  rewrite Hx. f_equal.
  apply (set_find_Some item_eq item_eq_spec) in Hx. destruct Hx as [Hxin Hxeq].
  apply (keys_distinct_unique c); auto. congruence.
Qed.

Lemma set_find_None_iff (c : list (NGramItem T)) (i : NGramItem T) :
  set_find item_eq c i = None <-> ~ holds c (items_ i).
Proof.
  split; [apply (set_find_None item_eq item_eq_spec) |].
  intros Hno. destruct (set_find item_eq c i) as [e |] eqn:Hf; [| reflexivity].
  exfalso. apply Hno. apply (set_find_Some item_eq item_eq_spec) in Hf.
  exists e. exact Hf.
Qed.

Lemma set_emplace_cases (c : list (NGramItem T)) (e : NGramItem T) :
  (holds c (items_ e) /\ set_emplace item_eq c e = c)
  \/ (~ holds c (items_ e) /\ set_emplace item_eq c e = c ++ [e]).
Proof.
  unfold set_emplace. destruct (set_find item_eq c e) as [x |] eqn:Hf.
  - left. split; [| reflexivity].
    apply (set_find_Some item_eq item_eq_spec) in Hf. exists x. exact Hf.
  - right. split; [| reflexivity].
    now apply (set_find_None item_eq item_eq_spec).
Qed.

Lemma set_emplace_keys_distinct (c : list (NGramItem T)) (e : NGramItem T) :
  keys_distinct c -> keys_distinct (set_emplace item_eq c e).
Proof.
  intros Hnd. destruct (set_emplace_cases c e) as [[_ ->] | [Hno ->]]; [exact Hnd |].
  unfold keys_distinct in *. rewrite map_app. apply List.NoDup_app; auto.
  - simpl. constructor; [tauto | constructor].
  - intros w Hw [<- | []]. apply Hno.
    apply in_map_iff in Hw. destruct Hw as (x & Hx & Hin). exists x. auto.
Qed.

Lemma Emplace_keys_distinct first ngrams ngram_size ngram_id c :
  keys_distinct c ->
  keys_distinct (snd (Emplace item_eq first ngrams ngram_size ngram_id c)).
Proof.
  revert first ngram_id c.
  induction ngrams as [| n IH]; intros first ngram_id c Hnd; simpl; [exact Hnd |].
  apply IH. now apply set_emplace_keys_distinct.
Qed.

(** When the set grew by the number of chunks, every chunk went in, in
    order, after what the set held. *)
Lemma Emplace_all_new first ngrams ngram_size ngram_id c :
  length (snd (Emplace item_eq first ngrams ngram_size ngram_id c))
  = (length c + ngrams)%nat ->
  snd (Emplace item_eq first ngrams ngram_size ngram_id c)
  = c ++ segment_entries first ngrams ngram_size ngram_id.
Proof.
  unfold segment_entries. revert first ngram_id c.
  induction ngrams as [| n IH]; intros first ngram_id c Hlen; simpl.
  - now rewrite app_nil_r.
  - simpl in Hlen.
    set (e := mkNGramItem ngram_id (take ngram_size first)) in *.
    pose proof (Emplace_length_le item_eq (drop ngram_size first) n ngram_size
                  (S ngram_id) (set_emplace item_eq c e)) as Hle.
    pose proof (set_emplace_length_le item_eq c e) as Hle1.
    destruct (set_emplace_cases c e) as [[_ Heq] | [_ Heq]];
      rewrite Heq in *; [lia |].
    rewrite IH by (rewrite length_app; simpl; lia).
    rewrite <- app_assoc. f_equal. simpl. f_equal.
    + unfold e. f_equal. lia.
    + rewrite <- seq_shift, map_map. apply map_ext. intros k.
      rewrite chunk_S. f_equal. lia.
Qed.
End PoolSetLookup.

(* ===================================================================== *)
(** ** What the pool loop keeps true *)
(* ===================================================================== *)

Lemma chunk_length {T : Type} (first : list T) (ngram_size k : nat) :
  ((k + 1) * ngram_size <= length first)%nat ->
  length (chunk first ngram_size k) = ngram_size.
Proof.
  intros H. unfold chunk. rewrite length_take, length_drop. nia.
Qed.

Lemma segment_entries_ids {T : Type} (first : list T)
    (ngrams ngram_size first_id : nat) :
  map id_ (segment_entries first ngrams ngram_size first_id)
  = seq first_id ngrams.
Proof.
  unfold segment_entries. rewrite map_map. cbn [id_].
  revert first_id. induction ngrams as [| n IH]; intros first_id; [reflexivity |].
  rewrite seq_S, map_app, IH, seq_S. simpl. reflexivity.
Qed.

Lemma segment_entries_sizes {T : Type} (first : list T)
    (ngrams ngram_size first_id : nat) :
  (ngrams * ngram_size <= length first)%nat ->
  Forall (fun e => length (items_ e) = ngram_size)
    (segment_entries first ngrams ngram_size first_id).
Proof.
  intros Hfit. unfold segment_entries. apply Forall_forall.
  intros e He. apply list_elem_of_In, in_map_iff in He.
  destruct He as (k & <- & Hk). apply in_seq in Hk. cbn [items_].
  apply chunk_length. nia.
Qed.

Lemma set_inv_length {T : Type} (ngram_size ngram_id : nat)
    (c : list (NGramItem T)) :
  set_inv ngram_size ngram_id c -> length c = ngram_id.
Proof.
  intros (Hids & _ & _).
  rewrite <- (length_map id_ c), Hids. apply length_seq.
Qed.

Lemma set_inv_next {T : Type} (ngram_size ngram_id : nat)
    (c : list (NGramItem T)) :
  set_inv ngram_size ngram_id c -> set_inv (S ngram_size) ngram_id c.
Proof.
  intros (Hids & Hnd & Hsz). repeat split; auto.
  eapply Forall_impl; [exact Hsz |]. simpl. intros e He. lia.
Qed.

Section EmplaceInv.
Context {T : Type}.
Variable item_eq : NGramItem T -> NGramItem T -> bool.
Hypothesis item_eq_spec :
  forall a o, item_eq a o = true <-> items_ a = items_ o.

(** One segment whose chunks all went in. *)
Lemma Emplace_set_inv first ngrams ngram_size ngram_id c :
  (1 <= ngram_size)%nat ->
  (ngrams * ngram_size <= length first)%nat ->
  set_inv ngram_size ngram_id c ->
  length (snd (Emplace item_eq first ngrams ngram_size ngram_id c))
  = (length c + ngrams)%nat ->
  set_inv (S ngram_size) (ngram_id + ngrams)
    (snd (Emplace item_eq first ngrams ngram_size ngram_id c)).
Proof.
  intros Hsize Hfit Hinv Hlen.
  destruct Hinv as (Hids & Hnd & Hsz). repeat split.
  - rewrite (Emplace_all_new item_eq item_eq_spec) by exact Hlen.
    rewrite map_app, Hids, segment_entries_ids, seq_app. reflexivity.
  - now apply (Emplace_keys_distinct item_eq item_eq_spec).
  - rewrite (Emplace_all_new item_eq item_eq_spec) by exact Hlen.
    apply Forall_app. split.
    + eapply Forall_impl; [exact Hsz |]. simpl. intros e He. lia.
    + eapply Forall_impl;
        [apply (segment_entries_sizes first ngrams ngram_size ngram_id Hfit) |].
      simpl. intros e He. lia.
Qed.
End EmplaceInv.

Section BuildInv.
Variable ngram_counts : list Z.
Variable pool_strings : list string.
Variable pool_int64s : list Z.

(** The arithmetic of a segment that passed the checks of the loop. *)
Lemma whole_chunks_fit {A : Type} (pool : list A)
    (start_idx end_idx : Z) (ngram_size : nat) :
  (1 <= ngram_size)%nat ->
  0 <= start_idx ->
  ((end_idx >=? start_idx) && (end_idx <=? size pool)) = true ->
  ((end_idx - start_idx) mod Z.of_nat ngram_size =? 0) = true ->
  (Z.to_nat ((end_idx - start_idx) / Z.of_nat ngram_size) * ngram_size
   <= length (drop (Z.to_nat start_idx) pool))%nat.
Proof.
  intros Hsize Hstart Hbounds Hmod.
  apply andb_true_iff in Hbounds. destruct Hbounds as [Hge Hle].
  apply Z.geb_le in Hge. apply Z.leb_le in Hle. apply Z.eqb_eq in Hmod.
  unfold size in Hle. rewrite length_drop.
  pose proof (Z.div_mod (end_idx - start_idx) (Z.of_nat ngram_size)
                ltac:(lia)) as Hdiv.
  assert (0 <= (end_idx - start_idx) / Z.of_nat ngram_size)
    by (apply Z.div_pos; lia).
  nia.
Qed.

Lemma to_size_t_nonneg (z : Z) : 0 <= to_size_t z.
Proof. unfold to_size_t. apply Z.mod_pos_bound. lia. Qed.

Lemma build_step_inv (i : nat) (st st' : build_state) :
  (1 <= b_ngram_size st)%nat ->
  build_inv pool_strings st ->
  build_step ngram_counts pool_strings pool_int64s i st = Ok st' ->
  build_inv pool_strings st' /\ b_ngram_size st' = S (b_ngram_size st).
Proof.
  intros Hsize Hinv. unfold build_step, pool_total_items, build_inv in *.
  destruct (ngram_counts !! i) as [c |]; [| discriminate].
  set (start_idx := to_size_t c).
  set (end_idx := match ngram_counts !! S i with
                  | Some c' => to_size_t c'
                  | None => _
                  end).
  pose proof (to_size_t_nonneg c) as Hstart. fold start_idx in Hstart.
  destruct (_ && _) eqn:Hbounds; cbn [ENFORCE bind]; [| discriminate].
  destruct (_ >? 0).
  2: { intros [= <-]. cbn [b_ngram_size b_ngram_id b_int_set b_str_set].
       split; [| reflexivity].
       destruct (is_empty pool_strings); destruct Hinv as [He Hs];
         (split; [exact He | now apply set_inv_next]). }
  destruct (_ mod _ =? 0) eqn:Hmod; cbn [ENFORCE bind]; [| discriminate].
  destruct (is_empty pool_strings) eqn:Hempty; destruct Hinv as [He Hs].
  - unfold end_idx in *. clear end_idx.
    set (end_idx := match ngram_counts !! S i with
                    | Some c' => to_size_t c'
                    | None => _
                    end) in *.
    pose proof (whole_chunks_fit pool_int64s start_idx end_idx
                  (b_ngram_size st) Hsize Hstart Hbounds Hmod) as Hfit.
    pose proof (Emplace_ngram_id int_item_eq
                  (drop (Z.to_nat start_idx) pool_int64s)
                  (Z.to_nat ((end_idx - start_idx) / Z.of_nat (b_ngram_size st)))
                  (b_ngram_size st) (b_ngram_id st) (b_int_set st)) as Hid.
    pose proof (Emplace_set_inv int_item_eq int_item_eq_spec
                  (drop (Z.to_nat start_idx) pool_int64s)
                  (Z.to_nat ((end_idx - start_idx) / Z.of_nat (b_ngram_size st)))
                  (b_ngram_size st) (b_ngram_id st) (b_int_set st)
                  Hsize Hfit Hs) as Hnew.
    destruct (Emplace int_item_eq _ _ _ _ _) as [ngram_id int_set].
    cbn [fst snd] in Hid, Hnew.
    destruct (Nat.eqb_spec
                (length (b_int_set st)
                 + Z.to_nat ((end_idx - start_idx) / Z.of_nat (b_ngram_size st)))
                (length int_set)) as [Hlen | Hlen];
      cbn [ENFORCE bind]; [| discriminate].
    intros [= <-]. cbn [b_ngram_size b_ngram_id b_int_set b_str_set].
    rewrite Hid. split; [split; [exact He | apply Hnew; lia] | reflexivity].
  - unfold end_idx in *. clear end_idx.
    set (end_idx := match ngram_counts !! S i with
                    | Some c' => to_size_t c'
                    | None => _
                    end) in *.
    pose proof (whole_chunks_fit pool_strings start_idx end_idx
                  (b_ngram_size st) Hsize Hstart Hbounds Hmod) as Hfit.
    pose proof (Emplace_ngram_id str_item_eq
                  (drop (Z.to_nat start_idx) pool_strings)
                  (Z.to_nat ((end_idx - start_idx) / Z.of_nat (b_ngram_size st)))
                  (b_ngram_size st) (b_ngram_id st) (b_str_set st)) as Hid.
    pose proof (Emplace_set_inv str_item_eq str_item_eq_spec
                  (drop (Z.to_nat start_idx) pool_strings)
                  (Z.to_nat ((end_idx - start_idx) / Z.of_nat (b_ngram_size st)))
                  (b_ngram_size st) (b_ngram_id st) (b_str_set st)
                  Hsize Hfit Hs) as Hnew.
    destruct (Emplace str_item_eq _ _ _ _ _) as [ngram_id str_set].
    cbn [fst snd] in Hid, Hnew.
    destruct (Nat.eqb_spec
                (length (b_str_set st)
                 + Z.to_nat ((end_idx - start_idx) / Z.of_nat (b_ngram_size st)))
                (length str_set)) as [Hlen | Hlen];
      cbn [ENFORCE bind]; [| discriminate].
    intros [= <-]. cbn [b_ngram_size b_ngram_id b_int_set b_str_set].
    rewrite Hid. split; [split; [exact He | apply Hnew; lia] | reflexivity].
Qed.

Lemma build_from_inv (remaining : nat) :
  forall (i : nat) (st st' : build_state),
    (1 <= b_ngram_size st)%nat ->
    build_inv pool_strings st ->
    build_from ngram_counts pool_strings pool_int64s remaining i st = Ok st' ->
    build_inv pool_strings st'
    /\ b_ngram_size st' = (b_ngram_size st + remaining)%nat.
Proof.
  induction remaining as [| r IH]; intros i st st' Hsize Hinv; cbn [build_from].
  - intros [= <-]. split; [exact Hinv | lia].
  - destruct (build_step ngram_counts pool_strings pool_int64s i st)
      as [st1 |] eqn:Hstep; cbn [bind]; [| discriminate].
    destruct (build_step_inv i st st1 Hsize Hinv Hstep) as [Hinv1 Hsize1].
    intros Hrest.
    destruct (IH (S i) st1 st' ltac:(lia) Hinv1 Hrest) as [Hinv' Hsize'].
    split; [exact Hinv' | lia].
Qed.

Lemma build_loop_inv (st : build_state) :
  build_loop ngram_counts pool_strings pool_int64s = Ok st ->
  build_inv pool_strings st
  /\ b_ngram_size st = S (length ngram_counts).
Proof.
  unfold build_loop. intros H.
  apply build_from_inv in H; cbn [b_ngram_size]; [| lia |].
  - destruct H as [Hinv Hsize]. cbn [b_ngram_size] in Hsize.
    split; [exact Hinv | lia].
  - unfold build_inv, set_inv, keys_distinct.
    destruct (is_empty pool_strings); cbn [b_str_set b_int_set b_ngram_id];
      repeat split; constructor.
Qed.
End BuildInv.

(* ===================================================================== *)
(** ** What a constructed kernel satisfies *)
(* ===================================================================== *)

Ltac passed_loop H :=
  match type of H with
  | context [build_loop ?c ?s ?i] =>
      let st := fresh "st" in
      let Hloop := fresh "Hloop" in
      destruct (build_loop c s i) as [st |] eqn:Hloop; [| discriminate H];
      apply build_loop_inv in Hloop; destruct Hloop as [Hloop ?]
  end.

Ltac passed_all_checks H :=
  repeat (cbn [GetAttr ENFORCE bind andb negb is_empty] in H;
          match type of H with
          | context [GetAttr ?a _] => is_var a; destruct a
          | context [is_empty ?l] => is_var l; destruct l
          | context [ENFORCE ?c _] => destruct c eqn:?
          end);
  cbn [GetAttr ENFORCE bind andb negb is_empty] in H;
  try discriminate H.

Ltac read_checks :=
  repeat match goal with
         | H : (_ && _) = true |- _ =>
             apply andb_true_iff in H; destruct H
         | H : (_ >? _) = true |- _ => apply Z.gtb_lt in H
         | H : (_ >=? _) = true |- _ => apply Z.geb_le in H
         | H : (_ =? _)%nat = true |- _ => apply Nat.eqb_eq in H
         | H : negb _ = true |- _ => apply negb_true_iff in H
         | H : is_empty ?l = false |- _ =>
             assert (l <> []) by (destruct l; [discriminate H | discriminate]);
             clear H
         | H : Mode_eqb ?m kNone = false |- _ =>
             assert (m <> kNone) by (intros Hm; rewrite Hm in H; discriminate H);
             clear H
         end.

Ltac solve_dictionary :=
  repeat match goal with
         | |- _ /\ _ => split
         | |- exists _, _ => eexists
         | Hs : set_inv ?n ?i ?c, Hn : ?n = _ |- set_inv _ (length ?c) ?c =>
             rewrite (set_inv_length _ _ _ Hs); rewrite <- Hn; exact Hs
         | |- _ => first [reflexivity | assumption | discriminate | lia]
         end.

Lemma Ngram_builds_valid_kernel (info : OpKernelInfo) (impl : Impl) :
  Ngram info = Ok impl -> valid_kernel info impl.
Proof.
  destruct info as [mode M N S all counts indexes weights ps pi].
  intros H. unfold Ngram in H.
  cbn [attr_mode attr_M attr_N attr_S attr_all attr_ngram_counts
       attr_ngram_indexes attr_weights attr_pool_strings attr_pool_int64s] in H.
  passed_all_checks H; passed_loop H; passed_all_checks H; injection H as <-;
    read_checks; unfold build_inv in *;
    repeat match goal with
           | H : is_empty ?l = true |- _ => destruct l; [clear H | discriminate H]
           | H : context [is_empty (_ :: _)] |- _ => cbn [is_empty] in H
           | H : context [is_empty []] |- _ => cbn [is_empty] in H
           | H : _ /\ _ |- _ => destruct H
           end;
    (constructor;
     cbn [attr_mode attr_M attr_N attr_S attr_all attr_ngram_counts
          attr_ngram_indexes attr_weights attr_pool_strings attr_pool_int64s
          mode_ N_ M_ S_ all_ ngram_counts_ ngram_indexes_ weights_
          pool_strings_ str_set_ int_set_];
     unfold dictionary_built;
     cbn [attr_pool_strings attr_pool_int64s
          ngram_counts_ ngram_indexes_ pool_strings_ str_set_ int_set_];
     eauto; try lia).
  all: first [left; solve [solve_dictionary] | right; solve [solve_dictionary]].
Qed.

Lemma ids_are_positions {T : Type} (c : list (NGramItem T)) (n k : nat)
    (e : NGramItem T) :
  map id_ c = seq 0 n -> c !! k = Some e -> id_ e = k.
Proof.
  intros Hids Hk.
  assert (Hk' : map id_ c !! k = Some (id_ e)).
  { change (map id_ c) with (id_ <$> c). now rewrite list_lookup_fmap, Hk. }
  rewrite Hids in Hk'. apply lookup_seq in Hk'. lia.
Qed.

Example unigrams_567_built : Ngram unigrams_567 = Ok unigrams_567_impl.
Proof. reflexivity. Qed.

(** X1. A kernel that the constructor returns carries the attributes it
    was given, and they passed the checks: a recognized mode, lengths
    with 0 < M <= N, non-empty ngram_counts and ngram_indexes, and
    weights that are absent (empty) or as many as the ngram_indexes. *)
Theorem X1_constructed_kernel_is_validated
    (info : OpKernelInfo) (impl : Impl) :
  Ngram info = Ok impl ->
  (exists m, attr_mode info = Some m /\ mode_ impl = mode_of_string m)
  /\ mode_ impl <> kNone
  /\ attr_M info = Some (M_ impl)
  /\ attr_N info = Some (N_ impl)
  /\ attr_S info = Some (S_ impl)
  /\ 0 < M_ impl <= N_ impl
  /\ attr_ngram_counts info = Some (ngram_counts_ impl)
  /\ ngram_counts_ impl <> []
  /\ attr_ngram_indexes info = Some (ngram_indexes_ impl)
  /\ ngram_indexes_ impl <> []
  /\ (weights_ impl = []
      \/ length (weights_ impl) = length (ngram_indexes_ impl)).
Proof.
  intros H. apply Ngram_builds_valid_kernel in H.
  destruct H as [(m & Hm & Hmode & Hnone) HM HN HS Hlen _
                 [Hc Hcne] [Hi Hine] Hw _].
  repeat split; eauto; try lia.
  destruct Hw as [[_ Hw] | [_ Hw]]; auto.
Qed.

Lemma X1_constructed_kernel_is_validated_witness :
  (exists m, attr_mode skip_bigram_13 = Some m
             /\ mode_ skip_bigram_13_impl = mode_of_string m)
  /\ mode_ skip_bigram_13_impl <> kNone
  /\ attr_M skip_bigram_13 = Some (M_ skip_bigram_13_impl)
  /\ attr_N skip_bigram_13 = Some (N_ skip_bigram_13_impl)
  /\ attr_S skip_bigram_13 = Some (S_ skip_bigram_13_impl)
  /\ 0 < M_ skip_bigram_13_impl <= N_ skip_bigram_13_impl
  /\ attr_ngram_counts skip_bigram_13
     = Some (ngram_counts_ skip_bigram_13_impl)
  /\ ngram_counts_ skip_bigram_13_impl <> []
  /\ attr_ngram_indexes skip_bigram_13
     = Some (ngram_indexes_ skip_bigram_13_impl)
  /\ ngram_indexes_ skip_bigram_13_impl <> []
  /\ (weights_ skip_bigram_13_impl = []
      \/ length (weights_ skip_bigram_13_impl)
         = length (ngram_indexes_ skip_bigram_13_impl)).
Proof.
  apply (X1_constructed_kernel_is_validated skip_bigram_13 skip_bigram_13_impl).
  reflexivity.
Defined.

(** The set that the pool filled, for each of the two pool types. *)
Lemma built_int_set (info : OpKernelInfo) (impl : Impl) :
  Ngram info = Ok impl ->
  set_inv (S (length (ngram_counts_ impl))) (length (int_set_ impl))
    (int_set_ impl).
Proof.
  intros H. apply Ngram_builds_valid_kernel in H.
  destruct (vk_dictionary _ _ H) as [(_ & _ & -> & _) | (_ & _ & _ & _ & _ & Hs)].
  - repeat split; constructor.
  - exact Hs.
Qed.

Lemma built_str_set (info : OpKernelInfo) (impl : Impl) :
  Ngram info = Ok impl ->
  set_inv (S (length (ngram_counts_ impl))) (length (str_set_ impl))
    (str_set_ impl).
Proof.
  intros H. apply Ngram_builds_valid_kernel in H.
  destruct (vk_dictionary _ _ H) as [(_ & _ & _ & _ & Hs) | (_ & _ & -> & _)].
  - exact Hs.
  - repeat split; constructor.
Qed.

(** X2. In a constructed kernel the id of a dictionary entry is its
    position in insertion order, and looking up the tokens of the entry
    at position k, under any sample id, returns that entry: ids are
    handed out 0, 1, 2, ... in pool order. Both hold for the integer set
    and for the string set. *)
Theorem X2_lookup_returns_the_position
    (info : OpKernelInfo) (impl : Impl) :
  Ngram info = Ok impl ->
  (forall (k j : nat) (e : NGramItem Z),
      int_set_ impl !! k = Some e ->
      id_ e = k
      /\ Find token_int64 impl (mkNGramItem j (items_ e)) = Some e
      /\ Find token_int32 impl (mkNGramItem j (items_ e)) = Some e)
  /\ (forall (k j : nat) (e : NGramItem string),
      str_set_ impl !! k = Some e ->
      id_ e = k
      /\ Find token_string impl (mkNGramItem j (items_ e)) = Some e).
Proof.
  intros H. split; intros k j e Hk.
  - destruct (built_int_set info impl H) as (Hids & Hnd & _).
    split; [eapply ids_are_positions; eauto |].
    assert (Hf : set_find int_item_eq (int_set_ impl)
                   (mkNGramItem j (items_ e)) = Some e).
    { apply (set_find_iff int_item_eq int_item_eq_spec); [exact Hnd |].
      split; [| reflexivity].
      apply list_elem_of_In. eapply list_elem_of_lookup_2. eauto. }
    split; exact Hf.
  - destruct (built_str_set info impl H) as (Hids & Hnd & _).
    split; [eapply ids_are_positions; eauto |].
    cbn [Find token_string].
    apply (set_find_iff str_item_eq str_item_eq_spec); [exact Hnd |].
    split; [| reflexivity].
    apply list_elem_of_In. eapply list_elem_of_lookup_2. eauto.
Qed.

Lemma X2_lookup_returns_the_position_witness :
  id_ (mkNGramItem 1 [6]) = 1%nat
  /\ Find token_int64 unigrams_567_impl (mkNGramItem 9 [6])
     = Some (mkNGramItem 1 [6])
  /\ Find token_int32 unigrams_567_impl (mkNGramItem 9 [6])
     = Some (mkNGramItem 1 [6]).
Proof.
  apply (proj1 (X2_lookup_returns_the_position unigrams_567 unigrams_567_impl
                  eq_refl) 1%nat 9%nat (mkNGramItem 1 [6])).
  reflexivity.
Defined.

(** X3. In a constructed kernel no two dictionary entries have the same
    tokens, and every entry has at least one token (the
    [assert(!items_.empty())] of the [NGramItem] constructor holds) and
    at most as many as ngram_counts has lengths. *)
Theorem X3_entries_are_distinct_ngrams
    (info : OpKernelInfo) (impl : Impl) :
  Ngram info = Ok impl ->
  keys_distinct (int_set_ impl)
  /\ keys_distinct (str_set_ impl)
  /\ Forall (fun e => items_ e <> []
                      /\ (length (items_ e) <= length (ngram_counts_ impl))%nat)
       (int_set_ impl)
  /\ Forall (fun e => items_ e <> []
                      /\ (length (items_ e) <= length (ngram_counts_ impl))%nat)
       (str_set_ impl).
Proof.
  intros H.
  destruct (built_int_set info impl H) as (_ & Hndi & Hszi).
  destruct (built_str_set info impl H) as (_ & Hnds & Hszs).
  repeat split; auto.
  - eapply Forall_impl; [exact Hszi |]. simpl. intros e He.
    split; [| lia]. destruct (items_ e); [simpl in He; lia | discriminate].
  - eapply Forall_impl; [exact Hszs |]. simpl. intros e He.
    split; [| lia]. destruct (items_ e); [simpl in He; lia | discriminate].
Qed.

Lemma X3_entries_are_distinct_ngrams_witness :
  keys_distinct (int_set_ unigrams_567_impl)
  /\ keys_distinct (str_set_ unigrams_567_impl)
  /\ Forall (fun e => items_ e <> []
                      /\ (length (items_ e)
                          <= length (ngram_counts_ unigrams_567_impl))%nat)
       (int_set_ unigrams_567_impl)
  /\ Forall (fun e => items_ e <> []
                      /\ (length (items_ e)
                          <= length (ngram_counts_ unigrams_567_impl))%nat)
       (str_set_ unigrams_567_impl).
Proof.
  apply (X3_entries_are_distinct_ngrams unigrams_567 unigrams_567_impl).
  reflexivity.
Defined.

(* ===================================================================== *)
(** ** [Emplace]: the duplicate check is exact *)
(* ===================================================================== *)

Section EmplaceExact.
Context {T : Type}.
Variable item_eq : NGramItem T -> NGramItem T -> bool.
Hypothesis item_eq_spec :
  forall a o, item_eq a o = true <-> items_ a = items_ o.

Lemma Emplace_grows_fully first ngrams ngram_size ngram_id c :
  chunks_all_new c first ngrams ngram_size ->
  length (snd (Emplace item_eq first ngrams ngram_size ngram_id c))
  = (length c + ngrams)%nat.
Proof.
  revert first ngram_id c.
  induction ngrams as [| n IH]; intros first ngram_id c [Hnew Hdiff]; simpl;
    [lia |].
  set (e := mkNGramItem ngram_id (take ngram_size first)).
  destruct (set_emplace_cases item_eq item_eq_spec c e) as [[Hheld _] | [_ ->]].
  - exfalso. apply (Hnew 0%nat); [lia |]. exact Hheld.
  - rewrite IH; [rewrite length_app; simpl; lia |].
    split.
    + intros k Hk (x & Hin & Hx). rewrite <- chunk_S in Hx.
      apply in_app_or in Hin. destruct Hin as [Hin | [<- | []]].
      * apply (Hnew (S k)); [lia |]. exists x. auto.
      * apply (Hdiff 0%nat (S k)); [lia |]. rewrite chunk_0. exact Hx.
    + intros j k Hjk. rewrite <- !chunk_S. apply Hdiff. lia.
Qed.

Lemma Emplace_exact first ngrams ngram_size ngram_id c :
  length (snd (Emplace item_eq first ngrams ngram_size ngram_id c))
  = (length c + ngrams)%nat
  <-> chunks_all_new c first ngrams ngram_size.
Proof.
  split; [| apply Emplace_grows_fully].
  intros Hlen. split.
  - intros k Hk Hheld.
    pose proof (Emplace_present item_eq item_eq_spec first ngrams ngram_size
                  ngram_id c k Hk Hheld). lia.
  - intros j k Hjk Heq.
    pose proof (Emplace_repeated item_eq item_eq_spec first ngrams ngram_size
                  ngram_id c j k Hjk Heq). lia.
Qed.
End EmplaceExact.

(** X4. The size test that follows [Emplace] is an exact duplicate check:
    the set grows by the number of chunks if and only if no chunk has the
    tokens of an entry the set already holds and no two chunks have the
    same tokens. The next id advances by the number of chunks in either
    case, and the set never grows by more. For integer and for string
    keys. *)
Theorem X4_duplicate_check_is_exact :
  (forall first ngrams ngram_size ngram_id (c : list (NGramItem Z)),
      (length (snd (Emplace int_item_eq first ngrams ngram_size ngram_id c))
       = (length c + ngrams)%nat
       <-> chunks_all_new c first ngrams ngram_size)
      /\ fst (Emplace int_item_eq first ngrams ngram_size ngram_id c)
         = (ngram_id + ngrams)%nat
      /\ (length (snd (Emplace int_item_eq first ngrams ngram_size ngram_id c))
          <= length c + ngrams)%nat)
  /\ (forall first ngrams ngram_size ngram_id (c : list (NGramItem string)),
      (length (snd (Emplace str_item_eq first ngrams ngram_size ngram_id c))
       = (length c + ngrams)%nat
       <-> chunks_all_new c first ngrams ngram_size)
      /\ fst (Emplace str_item_eq first ngrams ngram_size ngram_id c)
         = (ngram_id + ngrams)%nat
      /\ (length (snd (Emplace str_item_eq first ngrams ngram_size ngram_id c))
          <= length c + ngrams)%nat).
Proof.
  split; intros first ngrams ngram_size ngram_id c;
    (split; [| split; [apply Emplace_ngram_id | apply Emplace_length_le]]).
  - apply (Emplace_exact int_item_eq int_item_eq_spec).
  - apply (Emplace_exact str_item_eq str_item_eq_spec).
Qed.

(* ===================================================================== *)
(** ** Lookup in any kernel state *)
(* ===================================================================== *)

(** X5. A lookup goes by the tokens alone: what [Find] returns is an
    entry of the set with the tokens of the sample, whatever the ids, and
    [Find] returns the end of the set exactly when no entry has these
    tokens. For every kernel state and the three token types. *)
Theorem X5_lookup_goes_by_tokens (impl : Impl) :
  (forall sample hit,
      Find token_int64 impl sample = Some hit ->
      In hit (int_set_ impl) /\ items_ hit = items_ sample)
  /\ (forall sample,
      Find token_int64 impl sample = None
      <-> ~ holds (int_set_ impl) (items_ sample))
  /\ (forall sample,
      Find token_int32 impl sample = Find token_int64 impl sample)
  /\ (forall sample hit,
      Find token_string impl sample = Some hit ->
      In hit (str_set_ impl) /\ items_ hit = items_ sample)
  /\ (forall sample,
      Find token_string impl sample = None
      <-> ~ holds (str_set_ impl) (items_ sample)).
Proof.
  split; [| split; [| split; [| split]]].
  - intros sample hit. apply (set_find_Some int_item_eq int_item_eq_spec).
  - intros sample. apply (set_find_None_iff int_item_eq int_item_eq_spec).
  - reflexivity.
  - intros sample hit. apply (set_find_Some str_item_eq str_item_eq_spec).
  - intros sample. apply (set_find_None_iff str_item_eq str_item_eq_spec).
Qed.

Lemma X5_lookup_goes_by_tokens_witness :
  In (mkNGramItem 1 [6]) (int_set_ unigrams_567_impl)
  /\ items_ (mkNGramItem 1 [6]) = items_ (mkNGramItem 0 [6]).
Proof.
  apply (proj1 (X5_lookup_goes_by_tokens unigrams_567_impl)
           (mkNGramItem 0 [6]) (mkNGramItem 1 [6])).
  reflexivity.
Defined.

(* ===================================================================== *)
(** ** The frequencies are hit counts *)
(* ===================================================================== *)

Lemma uint32_incr_range (x : Z) : 0 <= uint32_incr x < 2 ^ 32.
Proof. unfold uint32_incr. apply Z.mod_pos_bound. lia. Qed.

Lemma IncrementCount_in_range (impl : Impl) (ngram_id : nat)
    (frequencies : list Z) (output_idx x : Z) :
  ngram_indexes_ impl !! ngram_id = Some output_idx ->
  0 <= output_idx ->
  frequencies !! Z.to_nat output_idx = Some x ->
  IncrementCount impl ngram_id frequencies
  = Ok (<[Z.to_nat output_idx := uint32_incr x]> frequencies).
Proof.
  intros Hidx Hpos Hx. unfold IncrementCount.
  pose proof (lookup_lt_Some _ _ _ Hidx) as Hid.
  pose proof (lookup_lt_Some _ _ _ Hx) as Hlt.
  destruct (Nat.ltb_spec ngram_id (length (ngram_indexes_ impl))); [| lia].
  cbn [ASSERT bind]. rewrite Hidx.
  destruct (Z.geb_spec output_idx 0); [| lia]. cbn [ENFORCE bind].
  assert (Hmod : to_size_t output_idx <= output_idx).
  { unfold to_size_t. apply Z.mod_le; lia. }
  destruct (Z.ltb_spec (to_size_t output_idx) (size frequencies));
    [| unfold size in *; lia].
  cbn [ASSERT bind]. rewrite Hx. reflexivity.
Qed.

Section HitCounts.
Context {T K : Type}.
Variable token : TokenType T K.
Variable impl : Impl.
Hypothesis in_range : indexes_in_range token impl.

Lemma probe_all_counts (ws : list (list T)) :
  forall frequencies : list Z,
    length frequencies = GetPoolSize token impl ->
    Forall (fun x => 0 <= x < 2 ^ 32) frequencies ->
    exists frequencies',
      probe_all token impl ws frequencies = Ok frequencies'
      /\ length frequencies' = length frequencies
      /\ forall (s : nat) (x : Z),
           frequencies !! s = Some x ->
           frequencies' !! s
           = Some ((x + hits token impl (Z.of_nat s) ws) mod 2 ^ 32).
Proof.
  induction ws as [| w ws IH]; intros f Hlen Hrange; cbn [probe_all hits].
  - exists f. repeat split. intros s x Hs.
    rewrite Z.add_0_r, Z.mod_small; [exact Hs |].
    rewrite Forall_forall in Hrange. apply Hrange.
    eapply list_elem_of_lookup_2. eauto.
  - unfold probe, slot_of.
    destruct (Find token impl _) as [hit |] eqn:Hfind.
    + destruct (in_range _ _ Hfind) as (idx & Hidx & Hpos & Hlt).
      destruct (lookup_lt_is_Some_2 f (Z.to_nat idx) ltac:(lia)) as [x0 Hx0].
      rewrite (IncrementCount_in_range impl (id_ hit) f idx x0 Hidx Hpos Hx0).
      cbn [bind]. rewrite Hidx.
      destruct (IH (<[Z.to_nat idx := uint32_incr x0]> f)) as (f' & -> & Hlen' & Hf').
      { rewrite length_insert. exact Hlen. }
      { apply Forall_insert; [exact Hrange | apply uint32_incr_range]. }
      exists f'. split; [reflexivity |].
      split; [rewrite Hlen', length_insert; reflexivity |].
      intros s x Hs.
      destruct (Nat.eq_dec s (Z.to_nat idx)) as [-> | Hne].
      * rewrite Z2Nat.id by lia. rewrite Z.eqb_refl.
        rewrite (Hf' (Z.to_nat idx) (uint32_incr x0)).
        2: { apply list_lookup_insert_eq. eapply lookup_lt_Some. eauto. }
        rewrite Z2Nat.id by lia.
        assert (x = x0) as -> by congruence.
        unfold uint32_incr. rewrite Zplus_mod_idemp_l. do 2 f_equal. lia.
      * destruct (Z.eqb_spec idx (Z.of_nat s)); [lia |].
        rewrite (Hf' s x).
        2: { rewrite list_lookup_insert_ne by auto. exact Hs. }
        reflexivity.
    + cbn [bind].
      destruct (IH f Hlen Hrange) as (f' & -> & Hlen' & Hf').
      exists f'. repeat split; auto.
Qed.

(** The frequencies of a call are, slot by slot, the number of probed
    windows that count towards the slot, in 32-bit arithmetic. *)
Lemma ComputeImpl_frequencies_counts (input : list T) :
  1 <= (if all_ impl then M_ impl else N_ impl) ->
  exists frequencies,
    ComputeImpl_frequencies token impl input (size input) = Ok frequencies
    /\ length frequencies = GetPoolSize token impl
    /\ forall s : nat,
         (s < GetPoolSize token impl)%nat ->
         frequencies !! s
         = Some (hits token impl (Z.of_nat s) (probed_windows impl input)
                 mod 2 ^ 32).
Proof.
  intros Hn. rewrite ComputeImpl_frequencies_windows by exact Hn.
  destruct (probe_all_counts (probed_windows impl input)
              (replicate (GetPoolSize token impl) 0))
    as (f & Hf & Hlen & Hcount).
  - apply length_replicate.
  - apply Forall_replicate. lia.
  - exists f. split; [exact Hf |]. rewrite length_replicate in Hlen.
    split; [exact Hlen |]. intros s Hs.
    rewrite (Hcount s 0); [reflexivity |].
    now apply lookup_replicate_2.
Qed.
End HitCounts.

(** X6. When every entry that a lookup can return has its output index
    inside the frequency vector, and N and S + 1 are in the range where
    the offsets of the loops are the integers of the machine, the
    extractor ends normally on every
    input, and the frequency of each slot is the number of probed windows
    whose n-gram has that output index, modulo 2^32 (the counters are
    32 bits wide). *)
Theorem X6_frequencies_are_hit_counts
    {T K : Type} (token : TokenType T K) (impl : Impl) (input : list T) :
  indexes_in_range token impl ->
  offsets_in_range impl ->
  1 <= (if all_ impl then M_ impl else N_ impl) ->
  exists frequencies,
    ComputeImpl_frequencies token impl input (size input) = Ok frequencies
    /\ length frequencies = GetPoolSize token impl
    /\ forall s : nat,
         (s < GetPoolSize token impl)%nat ->
         frequencies !! s
         = Some (hits token impl (Z.of_nat s) (probed_windows impl input)
                 mod 2 ^ 32).
Proof.
  intros Hrange _ Hn. now apply ComputeImpl_frequencies_counts.
Qed.

(** A constructed kernel whose output indexes lie below their number can
    be probed with integer tokens: the ids are positions of the integer
    set, which has one entry per index (or none, with a string pool). *)
Lemma built_indexes_in_range (info : OpKernelInfo) (impl : Impl) :
  Ngram info = Ok impl ->
  Forall (fun output_idx => 0 <= output_idx < size (ngram_indexes_ impl))
    (ngram_indexes_ impl) ->
  indexes_in_range token_int64 impl /\ indexes_in_range token_int32 impl.
Proof.
  intros H Hidx.
  assert (Hgoal : indexes_in_range token_int64 impl); [| split; exact Hgoal].
  intros sample hit Hfind. cbn [Find GetPoolSize token_int64] in *.
  apply (set_find_Some int_item_eq int_item_eq_spec) in Hfind.
  destruct Hfind as [Hin _].
  apply list_elem_of_In, list_elem_of_lookup_1 in Hin. destruct Hin as [k Hk].
  destruct (built_int_set info impl H) as (Hids & _ & _).
  rewrite (ids_are_positions _ _ _ _ Hids Hk).
  pose proof (lookup_lt_Some _ _ _ Hk) as Hlt.
  apply Ngram_builds_valid_kernel in H.
  destruct (vk_dictionary _ _ H)
    as [(_ & _ & Hnil & _) | (_ & _ & _ & _ & Hlen & _)].
  - rewrite Hnil in Hlt. simpl in Hlt. lia.
  - destruct (lookup_lt_is_Some_2 (ngram_indexes_ impl) k ltac:(lia))
      as [idx Hi].
    exists idx. split; [exact Hi |].
    rewrite Forall_forall in Hidx.
    specialize (Hidx idx (list_elem_of_lookup_2 _ _ _ Hi)).
    unfold size in Hidx. lia.
Qed.

Lemma X6_frequencies_are_hit_counts_witness :
  exists frequencies,
    ComputeImpl_frequencies token_int64 unigrams_567_impl [5; 5; 6]
      (size [5; 5; 6]) = Ok frequencies
    /\ length frequencies = GetPoolSize token_int64 unigrams_567_impl
    /\ forall s : nat,
         (s < GetPoolSize token_int64 unigrams_567_impl)%nat ->
         frequencies !! s
         = Some (hits token_int64 unigrams_567_impl (Z.of_nat s)
                   (probed_windows unigrams_567_impl [5; 5; 6])
                 mod 2 ^ 32).
Proof.
  apply (X6_frequencies_are_hit_counts token_int64 unigrams_567_impl [5; 5; 6]).
  - apply (built_indexes_in_range unigrams_567 unigrams_567_impl eq_refl).
    repeat constructor; cbn; lia.
  - split; simpl; lia.
  - simpl. lia.
Defined.

Lemma count_items_vector (n : nat) :
  0 < Z.of_nat n < 2 ^ 64 -> count_items [Z.of_nat n] = Z.of_nat n.
Proof.
  intros Hn. unfold count_items. cbn [is_empty orb length hd fold_left].
  destruct (Z.eqb_spec (Z.of_nat n) 0); [lia |].
  rewrite andb_false_r. unfold to_size_t.
  rewrite (Z.mod_small (Z.of_nat n)) by lia.
  rewrite Z.mul_1_l. apply Z.mod_small. lia.
Qed.

(** X7. End to end, for an integer pool: when every output index lies in
    [0, length(ngram_indexes)) and N and S + 1 are in the range where the
    offsets of the loops are the integers of the machine, a call on a
    non-empty one-dimensional
    int64 tensor returns the status OK and writes one float per output
    index; the float of each slot is the encoding, by the mode and the
    weight of the slot, of the number of probed windows whose n-gram has
    that output index (modulo 2^32). No check or assertion of the kernel
    fails. *)
Theorem X7_integer_call_counts_and_encodes
    (info : OpKernelInfo) (impl : Impl) (tokens : list Z)
    (out0 : option (list Z * list float)) :
  Ngram info = Ok impl ->
  attr_pool_strings info = None ->
  Forall (fun output_idx => 0 <= output_idx < size (ngram_indexes_ impl))
    (ngram_indexes_ impl) ->
  offsets_in_range impl ->
  0 < size tokens < 2 ^ 64 ->
  exists output_data,
    Compute impl (mkCtx (tensor_of (Int64Data tokens) (length tokens)) out0)
    = Ok (mkStatus OK "",
          mkCtx (tensor_of (Int64Data tokens) (length tokens))
            (Some ([size (ngram_indexes_ impl)], output_data)))
    /\ length output_data = length (ngram_indexes_ impl)
    /\ forall s : nat,
         (s < length (ngram_indexes_ impl))%nat ->
         output_data !! s
         = Some (spec_encode (mode_ impl) (weights_ impl !! s)
                   (hits token_int64 impl (Z.of_nat s)
                      (probed_windows impl tokens) mod 2 ^ 32)).
Proof.
  intros H Hpool Hidx _ Hlen.
  destruct (built_indexes_in_range info impl H Hidx) as [Hrange _].
  apply Ngram_builds_valid_kernel in H.
  destruct H as [(m & _ & _ & Hmode) _ _ _ HMN _ _ _ Hw Hdict].
  destruct Hdict as [(Hps & _) | (_ & _ & _ & _ & Hsize & _)];
    [congruence |].
  assert (Hn : 1 <= (if all_ impl then M_ impl else N_ impl))
    by (destruct (all_ impl); lia).
  destruct (ComputeImpl_frequencies_counts token_int64 impl Hrange tokens Hn)
    as (f & Hf & Hflen & Hcount).
  cbn [GetPoolSize token_int64] in Hflen, Hcount.
  destruct (OutputResult_encodes impl f
              (mkCtx (tensor_of (Int64Data tokens) (length tokens)) out0) Hmode)
    as (out & Hout & Holen & Hentries).
  { destruct Hw as [[_ Hw] | [_ Hw]]; [left; exact Hw | right; lia]. }
  exists out. unfold Compute, tensor_of. cbn [Input0 Shape Data].
  rewrite count_items_vector by exact Hlen. unfold ComputeImpl.
  fold (size tokens). rewrite Hf. cbn [bind].
  unfold tensor_of in Hout. fold (size tokens) in Hout.
  rewrite Hout. cbn [bind Input0].
  unfold size. rewrite Hflen, Hsize.
  split; [reflexivity |]. split; [lia |].
  intros s Hs. destruct (lookup_lt_is_Some_2 f s ltac:(lia)) as [x Hx].
  rewrite (Hentries s x Hx). rewrite Hcount in Hx by lia.
  injection Hx as <-. reflexivity.
Qed.

Lemma X7_integer_call_counts_and_encodes_witness :
  exists output_data,
    Compute unigrams_567_impl
      (mkCtx (tensor_of (Int64Data [5; 5; 6]) (length [5; 5; 6])) None)
    = Ok (mkStatus OK "",
          mkCtx (tensor_of (Int64Data [5; 5; 6]) (length [5; 5; 6]))
            (Some ([size (ngram_indexes_ unigrams_567_impl)], output_data)))
    /\ length output_data = length (ngram_indexes_ unigrams_567_impl)
    /\ forall s : nat,
         (s < length (ngram_indexes_ unigrams_567_impl))%nat ->
         output_data !! s
         = Some (spec_encode (mode_ unigrams_567_impl)
                   (weights_ unigrams_567_impl !! s)
                   (hits token_int64 unigrams_567_impl (Z.of_nat s)
                      (probed_windows unigrams_567_impl [5; 5; 6])
                    mod 2 ^ 32)).
Proof.
  apply (X7_integer_call_counts_and_encodes unigrams_567 unigrams_567_impl
           [5; 5; 6] None).
  - reflexivity.
  - reflexivity.
  - repeat constructor; cbn; lia.
  - split; simpl; lia.
  - unfold size. simpl length. lia.
Defined.

(* ===================================================================== *)
(** ** Inputs and settings that leave nothing to probe *)
(* ===================================================================== *)

Lemma concat_map_nil {A B : Type} (f : A -> list B) (l : list A) :
  (forall x, In x l -> f x = []) -> concat (map f l) = [].
Proof.
  induction l as [| a l IH]; intros H; simpl; [reflexivity |].
  rewrite (H a) by (left; reflexivity). apply IH. intros x Hx. apply H. now right.
Qed.

Lemma In_seqZ (m n k : Z) : In k (seqZ m n) -> m <= k < m + n.
Proof. intros H. apply list_elem_of_In, elem_of_seqZ in H. exact H. Qed.

Section NothingToProbe.
Context {T : Type}.
Variable input : list T.

Lemma windows_nil (ni si : Z) :
  size input < window_span ni si -> windows input ni si = [].
Proof.
  intros H. unfold windows, window_starts. now rewrite seqZ_nil by lia.
Qed.

Lemma windows_of_length_nil (S ni : Z) :
  1 <= ni ->
  input = [] \/ (2 <= ni /\ (S <= 0 \/ size input < ni)) ->
  windows_of_length input S ni = [].
Proof.
  intros Hni Hcase. unfold windows_of_length.
  destruct (Z.eqb_spec ni 1) as [-> | Hne].
  - destruct Hcase as [-> | [? _]]; [reflexivity | lia].
  - apply concat_map_nil. intros si Hsi. apply In_seqZ in Hsi.
    apply windows_nil. unfold window_span.
    destruct Hcase as [-> | [_ [HS | Hshort]]]; [unfold size; simpl | |]; nia.
Qed.

Lemma all_windows_nil (n N S : Z) :
  1 <= n ->
  input = [] \/ (2 <= n /\ (S <= 0 \/ size input < n)) ->
  all_windows input n N S = [].
Proof.
  intros Hn Hcase. unfold all_windows. apply concat_map_nil.
  intros ni Hni. apply In_seqZ in Hni. apply windows_of_length_nil; [lia |].
  destruct Hcase as [-> | [? [HS | Hshort]]]; [left; reflexivity | |];
    right; split; try lia.
Qed.
End NothingToProbe.

(** X8. When the shortest n-gram length that a kernel probes is at least
    2 and the input has fewer tokens than that, the extractor reads no
    window and returns the all-zero frequencies, whatever the dictionary
    and the output indexes (with N and S + 1 in the range where the
    offsets of the loops are the integers of the machine). *)
Theorem X8_short_input_counts_nothing
    {T K : Type} (token : TokenType T K) (impl : Impl) (input : list T) :
  2 <= (if all_ impl then M_ impl else N_ impl) ->
  size input < (if all_ impl then M_ impl else N_ impl) ->
  offsets_in_range impl ->
  ComputeImpl_frequencies token impl input (size input)
  = Ok (replicate (GetPoolSize token impl) 0).
Proof.
  intros Hn Hshort _.
  rewrite ComputeImpl_frequencies_windows by lia.
  rewrite all_windows_nil by first [lia | right; split; [lia | right; lia]].
  reflexivity.
Qed.

Lemma X8_short_input_counts_nothing_witness :
  ComputeImpl_frequencies token_int64 skip_bigram_13_impl [1] (size [1])
  = Ok (replicate (GetPoolSize token_int64 skip_bigram_13_impl) 0).
Proof.
  apply (X8_short_input_counts_nothing token_int64 skip_bigram_13_impl [1]);
    [simpl; lia | simpl; unfold size; simpl; lia | split; simpl; lia].
Defined.



(* ===================================================================== *)
(** ** Unigram kernels and empty inputs *)
(* ===================================================================== *)

(** X10. Skips do not apply to unigrams: for a kernel that probes only
    the length 1 (N = 1), a call returns the same result whatever the
    skip count is, for every context. *)
Theorem X10_unigram_kernel_ignores_skips
    (impl : Impl) (S : Z) (ctx : OpKernelContext) :
  N_ impl = 1 ->
  (if all_ impl then M_ impl else N_ impl) = 1 ->
  Compute (with_skips impl S) ctx = Compute impl ctx.
Proof.
  intros HN Hn. unfold Compute, ComputeImpl, ComputeImpl_frequencies.
  cbn [N_ M_ S_ all_ with_skips]. rewrite Hn, HN.
  change (Z.to_nat (1 - 1 + 1)) with 1%nat.
  destruct (Data (Input0 ctx)); cbn [length_loop Z.leb Z.eqb Z.compare
    Pos.compare Pos.compare_cont Z.add Pos.add Pos.succ];
    reflexivity.
Qed.

Lemma X10_unigram_kernel_ignores_skips_witness :
  Compute (with_skips unigrams_567_impl 7)
    (mkCtx (tensor_of (Int64Data [5; 5; 6]) 3) None)
  = Compute unigrams_567_impl (mkCtx (tensor_of (Int64Data [5; 5; 6]) 3) None).
Proof.
  apply (X10_unigram_kernel_ignores_skips unigrams_567_impl 7); reflexivity.
Defined.



(* ===================================================================== *)
(** ** The encoder outside the table *)
(* ===================================================================== *)

(** X12. The encoder at its edges: with the mode [kNone] it stops at
    [assert(false)]; in the mode TF it never reads the weights (the
    output is the counts as floats for any weights); in the modes IDF and
    TFIDF, weights that are present but not as many as the frequencies
    stop it at [assert(frequences.size() == w.size())]. *)
Theorem X12_encoder_edges
    (impl : Impl) (frequences : list Z) (ctx : OpKernelContext) :
  (mode_ impl = kNone ->
   OutputResult impl frequences ctx = Fail (AssertFailed "false"))
  /\ (mode_ impl = kTF ->
      OutputResult impl frequences ctx
      = Ok (mkCtx (Input0 ctx)
              (Some ([size frequences], map float_of_uint32 frequences))))
  /\ (mode_ impl = kIDF \/ mode_ impl = kTFIDF ->
      weights_ impl <> [] ->
      length (weights_ impl) <> length frequences ->
      OutputResult impl frequences ctx
      = Fail (AssertFailed "frequences.size() == w.size()")).
Proof.
  unfold OutputResult. rewrite OutputResult_switch.
  split; [| split].
  - intros ->. reflexivity.
  - intros ->. reflexivity.
  - intros Hmode Hne Hlen. unfold case_kIDF, case_kTFIDF.
    destruct (weights_ impl) as [| w ws] eqn:Hw; [contradiction |].
    cbn [is_empty negb].
    destruct (Nat.eqb_spec (length frequences) (length (w :: ws))); [lia |].
    destruct Hmode as [-> | ->]; reflexivity.
Qed.

Lemma X12_encoder_edges_witness :
  OutputResult (mkImpl kNone 1 1 0 false [0] [0] [] [] [] []) [2]
    (mkCtx (tensor_of (Int64Data [5]) 1) None)
  = Fail (AssertFailed "false")
  /\ OutputResult unigrams_567_impl [2; 1; 0]
       (mkCtx (tensor_of (Int64Data [5; 5; 6]) 3) None)
     = Ok (mkCtx (tensor_of (Int64Data [5; 5; 6]) 3)
             (Some ([size [2; 1; 0]], map float_of_uint32 [2; 1; 0])))
  /\ OutputResult (mkImpl kIDF 1 1 0 false [0] [0] [float_one] [] [] []) []
       (mkCtx (tensor_of (Int64Data [5]) 1) None)
     = Fail (AssertFailed "frequences.size() == w.size()").
Proof.
  split; [| split].
  - apply (proj1 (X12_encoder_edges
                    (mkImpl kNone 1 1 0 false [0] [0] [] [] [] []) [2]
                    (mkCtx (tensor_of (Int64Data [5]) 1) None))).
    reflexivity.
  - apply (proj1 (proj2 (X12_encoder_edges unigrams_567_impl [2; 1; 0]
                           (mkCtx (tensor_of (Int64Data [5; 5; 6]) 3) None)))).
    reflexivity.
  - apply (proj2 (proj2 (X12_encoder_edges
                           (mkImpl kIDF 1 1 0 false [0] [0] [float_one] [] [] [])
                           [] (mkCtx (tensor_of (Int64Data [5]) 1) None)))).
    + left. reflexivity.
    + discriminate.
    + discriminate.
Defined.

(* ===================================================================== *)
(** ** A tensor of the other pool's type *)
(* ===================================================================== *)





(* ===================================================================== *)
(** ** One window, one counter, one hash *)
(* ===================================================================== *)

Lemma omap_seq_lookup {A : Type} (f : nat -> option A) (n : nat) :
  forall a : nat,
    (forall j, (a <= j < a + n)%nat -> is_Some (f j)) ->
    length (omap f (seq a n)) = n
    /\ forall k, (k < n)%nat -> omap f (seq a n) !! k = f (a + k)%nat.
Proof.
  induction n as [| n IH]; intros a Hsome; [split; [reflexivity | lia] |].
  cbn [seq omap list_omap].
  destruct (Hsome a ltac:(lia)) as [x Hx]. rewrite Hx.
  destruct (IH (S a)) as [Hlen Hnth].
  { intros j Hj. apply Hsome. lia. }
  split; [simpl; now rewrite Hlen |].
  intros [| k] Hk.
  - simpl. now rewrite Nat.add_0_r, Hx.
  - simpl. rewrite Hnth by lia. f_equal. lia.
Qed.

Lemma window_at_tokens {T : Type} (input : list T) (ni si p : Z) :
  1 <= ni -> 1 <= si -> 0 <= p ->
  p + window_span ni si <= size input ->
  length (window_at input ni si p) = Z.to_nat ni
  /\ forall k : nat,
       Z.of_nat k < ni ->
       window_at input ni si p !! k = input !! Z.to_nat (p + si * Z.of_nat k).
Proof.
  intros Hni Hsi Hp Hfit. unfold window_at, window_span, size in *.
  destruct (omap_seq_lookup
              (fun k : nat => input !! Z.to_nat (p + si * Z.of_nat k))
              (Z.to_nat ni) 0%nat) as [Hlen Hnth].
  { intros j Hj. apply lookup_lt_is_Some_2. nia. }
  split; [exact Hlen |]. intros k Hk. rewrite Hnth by lia. reflexivity.
Qed.

(** X14. One start of the loop over the windows, for a length and a
    distance in the range where the offsets are the integers of the
    machine. When the span of the window fits in the input from the
    start p on, the inner loop gathers exactly [ni] tokens: the sample
    holds, at each position k < ni, the key of the input token at
    p + si * k, and keeps the id 0. When the span does not fit, the loop
    over the starts ends there: it reads no token, probes nothing and
    returns the frequencies as they are. *)
Theorem X14_window_sample
    {T K : Type} (token : TokenType T K) (impl : Impl) (input : list T)
    (ni si p : Z) :
  1 <= ni -> 1 <= si -> 0 <= p -> offset_in_range ni si ->
  (p + window_span ni si <= size input ->
   exists sample,
     collect token input (S (Z.to_nat (p + si * (ni - 1) + 1 - p)))
       si (p + si * (ni - 1) + 1) p cleared_sample
     = Ok sample
     /\ id_ sample = 0%nat
     /\ length (items_ sample) = Z.to_nat ni
     /\ forall k : nat,
          Z.of_nat k < ni ->
          items_ sample !! k
          = to_key token <$> input !! Z.to_nat (p + si * Z.of_nat k))
  /\ (size input < p + window_span ni si ->
      forall (fuel : nat) (frequencies : list Z),
        window_loop token impl input (size input) (S fuel) ni si p frequencies
        = Ok frequencies).
Proof.
  intros Hni Hsi Hp _. split.
  - intros Hfit.
    destruct (window_at_tokens input ni si p Hni Hsi Hp Hfit) as [Hlen Hnth].
    eexists. split; [apply collect_window; assumption |].
    cbn [id_ items_]. split; [reflexivity |].
    split; [now rewrite length_map |].
    intros k Hk.
    change (map (to_key token) (window_at input ni si p))
      with (to_key token <$> window_at input ni si p).
    now rewrite list_lookup_fmap, Hnth.
  - intros Hshort fuel f. unfold window_span in Hshort.
    cbn [window_loop]. unfold end_data.
    destruct (p <? size input); [| reflexivity].
    destruct (Z.gtb_spec (p + si * (ni - 1) + 1) (size input)); [reflexivity |].
    lia.
Qed.

Lemma X14_window_sample_witness :
  (exists sample,
      collect token_int64 [1; 2; 3] (S (Z.to_nat (0 + 2 * (2 - 1) + 1 - 0)))
        2 (0 + 2 * (2 - 1) + 1) 0 cleared_sample
      = Ok sample
      /\ id_ sample = 0%nat
      /\ length (items_ sample) = Z.to_nat 2
      /\ forall k : nat,
           Z.of_nat k < 2 ->
           items_ sample !! k
           = to_key token_int64 <$> [1; 2; 3] !! Z.to_nat (0 + 2 * Z.of_nat k))
  /\ window_loop token_int64 skip_bigram_13_impl [1; 2; 3] (size [1; 2; 3])
       3 2 2 1 [7]
     = Ok [7].
Proof.
  split.
  - apply (proj1 (X14_window_sample token_int64 skip_bigram_13_impl [1; 2; 3]
                    2 2 0 ltac:(lia) ltac:(lia) ltac:(lia)
                    ltac:(split; lia))).
    unfold window_span, size; simpl; lia.
  - apply (proj2 (X14_window_sample token_int64 skip_bigram_13_impl [1; 2; 3]
                    2 2 1 ltac:(lia) ltac:(lia) ltac:(lia)
                    ltac:(split; lia))).
    unfold window_span, size; simpl; lia.
Defined.

(** X15. The counter update in all its cases. An id outside
    ngram_indexes stops at the first assertion; a negative output index
    throws; an output index at or beyond the size of the frequencies
    stops at the second assertion; otherwise the counter of that slot,
    and no other, goes up by one modulo 2^32. *)
Theorem X15_counter_update
    (impl : Impl) (ngram_id : nat) (frequencies : list Z) :
  (ngram_indexes_ impl !! ngram_id = None ->
   IncrementCount impl ngram_id frequencies
   = Fail (AssertFailed "ngram_id < ngram_indexes_.size()"))
  /\ (forall output_idx,
      ngram_indexes_ impl !! ngram_id = Some output_idx ->
      output_idx < 0 ->
      IncrementCount impl ngram_id frequencies
      = Fail (EnforceFailed "ngram_indxes has a negative index"))
  /\ (forall output_idx,
      ngram_indexes_ impl !! ngram_id = Some output_idx ->
      size frequencies <= output_idx < 2 ^ 63 ->
      IncrementCount impl ngram_id frequencies
      = Fail (AssertFailed
                "static_cast<size_t>(output_idx) < frequencies.size()"))
  /\ (forall output_idx x,
      ngram_indexes_ impl !! ngram_id = Some output_idx ->
      0 <= output_idx ->
      frequencies !! Z.to_nat output_idx = Some x ->
      IncrementCount impl ngram_id frequencies
      = Ok (<[Z.to_nat output_idx := (x + 1) mod 2 ^ 32]> frequencies)).
Proof.
  split; [| split; [| split]].
  - intros Hnone. unfold IncrementCount.
    apply lookup_ge_None in Hnone.
    destruct (Nat.ltb_spec ngram_id (length (ngram_indexes_ impl))); [lia |].
    reflexivity.
  - intros idx Hidx Hneg. unfold IncrementCount.
    pose proof (lookup_lt_Some _ _ _ Hidx).
    destruct (Nat.ltb_spec ngram_id (length (ngram_indexes_ impl))); [| lia].
    cbn [ASSERT bind]. rewrite Hidx.
    destruct (Z.geb_spec idx 0); [lia | reflexivity].
  - intros idx Hidx Hbig. unfold IncrementCount.
    pose proof (lookup_lt_Some _ _ _ Hidx).
    destruct (Nat.ltb_spec ngram_id (length (ngram_indexes_ impl))); [| lia].
    cbn [ASSERT bind]. rewrite Hidx.
    assert (0 <= size frequencies) by (unfold size; lia).
    destruct (Z.geb_spec idx 0); [| lia]. cbn [ENFORCE bind].
    unfold to_size_t. rewrite Z.mod_small by lia.
    destruct (Z.ltb_spec idx (size frequencies)); [lia | reflexivity].
  - intros idx x Hidx Hpos Hx.
    exact (IncrementCount_in_range impl ngram_id frequencies idx x Hidx Hpos Hx).
Qed.

Lemma X15_counter_update_witness :
  IncrementCount unigrams_567_impl 7 [0; 0; 0]
  = Fail (AssertFailed "ngram_id < ngram_indexes_.size()")
  /\ IncrementCount (mkImpl kTF 1 1 0 false [0] [-1] [] [] [] []) 0 [0]
     = Fail (EnforceFailed "ngram_indxes has a negative index")
  /\ IncrementCount unigram_5_slot_2_impl 0 [0]
     = Fail (AssertFailed
               "static_cast<size_t>(output_idx) < frequencies.size()")
  /\ IncrementCount unigrams_567_impl 1 [0; 4294967295; 0]
     = Ok (<[Z.to_nat 1 := (4294967295 + 1) mod 2 ^ 32]> [0; 4294967295; 0]).
Proof.
  split; [| split; [| split]].
  - apply (proj1 (X15_counter_update unigrams_567_impl 7 [0; 0; 0])).
    reflexivity.
  - apply (proj1 (proj2 (X15_counter_update
                           (mkImpl kTF 1 1 0 false [0] [-1] [] [] [] [])
                           0 [0])) (-1)).
    + reflexivity.
    + lia.
  - apply (proj1 (proj2 (proj2 (X15_counter_update unigram_5_slot_2_impl
                                   0 [0]))) 2).
    + reflexivity.
    + unfold size. simpl length. lia.
  - apply (proj2 (proj2 (proj2 (X15_counter_update unigrams_567_impl 1
                                   [0; 4294967295; 0]))) 1 4294967295).
    + reflexivity.
    + lia.
    + reflexivity.
Defined.

(** X16. Keys that compare equal hash alike, whatever [std::hash] of the
    token type is and whatever the ids are: the hash and [operator==]
    agree as a hash set requires, for integer and for string keys. The
    hash of a key without tokens is 0. *)
Theorem X16_equal_keys_hash_alike :
  (forall (hf : Z -> Z) (a o : NGramItem Z),
      int_item_eq a o = true -> hash hf a = hash hf o)
  /\ (forall (hf : string -> Z) (a o : NGramItem string),
      str_item_eq a o = true -> hash hf a = hash hf o)
  /\ (forall (T : Type) (hf : T -> Z) (i : nat),
      hash hf (mkNGramItem i []) = 0).
Proof.
  split; [| split].
  - intros hf a o H. apply hash_respects_eq. now apply int_item_eq_spec.
  - intros hf a o H. apply hash_respects_eq. now apply str_item_eq_spec.
  - reflexivity.
Qed.

Lemma X16_equal_keys_hash_alike_witness :
  hash (fun t => t) (mkNGramItem 0 [1; 3])
  = hash (fun t => t) (mkNGramItem 5 [1; 3])
  /\ hash (fun t => Z.of_nat (String.length t)) (mkNGramItem 0 ["a"; "bc"])
     = hash (fun t => Z.of_nat (String.length t)) (mkNGramItem 5 ["a"; "bc"]).
Proof.
  split.
  - apply (proj1 X16_equal_keys_hash_alike (fun t => t)
             (mkNGramItem 0 [1; 3]) (mkNGramItem 5 [1; 3])).
    reflexivity.
  - apply (proj1 (proj2 X16_equal_keys_hash_alike)
             (fun t => Z.of_nat (String.length t))
             (mkNGramItem 0 ["a"; "bc"]) (mkNGramItem 5 ["a"; "bc"])).
    reflexivity.
Defined.

(* ===================================================================== *)
(** ** The flag [all] *)
(* ===================================================================== *)

(** X17. When M = N the flag [all] changes nothing: the lengths M .. N
    and the single length N are the same, so a call returns the same
    result for either value of the flag, for every context. *)
Theorem X17_all_is_idle_when_M_is_N
    (impl : Impl) (all : bool) (ctx : OpKernelContext) :
  M_ impl = N_ impl ->
  Compute (with_all impl all) ctx = Compute impl ctx.
Proof.
  intros HM. unfold Compute, ComputeImpl, ComputeImpl_frequencies.
  cbn [N_ M_ S_ all_ with_all]. rewrite HM.
  destruct all, (all_ impl), (Data (Input0 ctx)); reflexivity.
Qed.

Lemma X17_all_is_idle_when_M_is_N_witness :
  Compute (with_all skip_bigram_13_impl true)
    (mkCtx (tensor_of (Int64Data [1; 2; 3]) 3) None)
  = Compute skip_bigram_13_impl (mkCtx (tensor_of (Int64Data [1; 2; 3]) 3) None).
Proof.
  apply (X17_all_is_idle_when_M_is_N skip_bigram_13_impl true). reflexivity.
Defined.

(* ===================================================================== *)
(** ** The pool loop: segments that are refused, and nothing else *)
(* ===================================================================== *)

Section BuildRefusals.
Variable ngram_counts : list Z.
Variable pool_strings : list string.
Variable pool_int64s : list Z.

Local Abbreviation step :=
  (build_step ngram_counts pool_strings pool_int64s).

Lemma build_from_fails_at (i : nat) :
  (forall st, b_ngram_size st = S i -> config_error (step i st)) ->
  forall (remaining i0 : nat) (st : build_state),
    (i0 + remaining = length ngram_counts)%nat ->
    (i0 <= i < i0 + remaining)%nat ->
    b_ngram_size st = S i0 ->
    config_error
      (build_from ngram_counts pool_strings pool_int64s remaining i0 st).
Proof.
  intros Hfail. induction remaining as [| r IH]; intros i0 st Hlen Hi Hsize.
  - lia.
  - cbn [build_from].
    destruct (Nat.eq_dec i0 i) as [-> | Hne].
    + destruct (Hfail st Hsize) as [msg ->]. eexists. reflexivity.
    + destruct (build_step_next ngram_counts pool_strings pool_int64s
                  i0 st ltac:(lia)) as [[msg ->] | (st' & -> & Hsize')].
      * eexists. reflexivity.
      * cbn [bind]. apply IH; lia.
Qed.

Lemma build_step_malformed (i : nat) (st : build_state) :
  active_pool_malformed ngram_counts pool_strings pool_int64s i ->
  b_ngram_size st = S i ->
  config_error (step i st).
Proof.
  unfold active_pool_malformed, build_step, pool_total_items.
  intros Hbad Hsize. rewrite Hsize.
  assert (Hseg : exists start_idx end_idx,
    segment ngram_counts
      (if is_empty pool_strings then size pool_int64s else size pool_strings) i
    = Some (start_idx, end_idx)
    /\ (end_idx < start_idx
        \/ (if is_empty pool_strings then size pool_int64s
            else size pool_strings) < end_idx
        \/ (end_idx - start_idx) mod Z.of_nat (S i) <> 0)).
  { destruct (is_empty pool_strings); exact Hbad. }
  destruct Hseg as (start_idx & end_idx & Hseg & Hcase).
  unfold segment in Hseg.
  destruct (ngram_counts !! i) as [c |]; [| discriminate].
  injection Hseg as Hs He. rewrite Hs, He.
  destruct (Z.geb_spec end_idx start_idx);
    cbn [andb ENFORCE bind]; [| eexists; reflexivity].
  destruct (Z.leb_spec end_idx
              (if is_empty pool_strings then size pool_int64s
               else size pool_strings));
    cbn [andb ENFORCE bind]; [| eexists; reflexivity].
  destruct Hcase as [| [| Hmod]]; try lia.
  destruct (Z.gtb_spec (end_idx - start_idx) 0).
  - destruct (Z.eqb_spec ((end_idx - start_idx) mod Z.of_nat (S i)) 0);
      [contradiction |].
    cbn [ENFORCE bind]. eexists. reflexivity.
  - exfalso. apply Hmod.
    replace (end_idx - start_idx) with 0 by lia. apply Z.mod_0_l. lia.
Qed.

Lemma build_loop_malformed (i : nat) :
  (i < length ngram_counts)%nat ->
  active_pool_malformed ngram_counts pool_strings pool_int64s i ->
  config_error (build_loop ngram_counts pool_strings pool_int64s).
Proof.
  intros Hi Hbad. unfold build_loop.
  apply (build_from_fails_at i); cbn [b_ngram_size]; try lia.
  intros st. now apply build_step_malformed.
Qed.
End BuildRefusals.

(** X18. A pool segment that ends before it starts (offsets that go
    down), that ends beyond the pool, or whose size is not a multiple of
    its n-gram length makes construction fail with a ConfigError, for
    string and for integer pools. *)
Theorem X18_malformed_segment_is_refused (info : OpKernelInfo) (i : nat) :
  pool_malformed info i -> config_error (Ngram info).
Proof.
  destruct info as [mode M N S all counts indexes weights ps pi].
  unfold pool_malformed.
  cbn [attr_ngram_counts attr_pool_strings attr_pool_int64s].
  destruct counts as [counts |]; [| destruct ps, pi; contradiction].
  intros Hbad.
  assert (Hi : (i < length counts)%nat).
  { assert (Hseg : exists T (pool : list T), malformed_segment counts pool i).
    { destruct ps as [ps |]; [eauto |]. destruct pi as [pi |]; [eauto |].
      contradiction. }
    destruct Hseg as (T & pool & s & e & Hseg & _).
    unfold segment in Hseg.
    destruct (counts !! i) eqn:Hc; [| discriminate].
    eapply lookup_lt_Some; eauto. }
  unfold Ngram.
  cbn [attr_mode attr_M attr_N attr_S attr_all attr_ngram_counts
       attr_ngram_indexes attr_weights attr_pool_strings attr_pool_int64s].
  destruct ps as [[| p ps] |].
  - step_checks.
  - step_checks;
      destruct (build_loop_malformed counts (p :: ps) [] i Hi Hbad)
        as [msg ->]; eexists; reflexivity.
  - destruct pi as [pi |]; [| contradiction].
    step_checks;
      destruct (build_loop_malformed counts [] pi i Hi Hbad)
        as [msg ->]; eexists; reflexivity.
Qed.

Lemma X18_malformed_segment_is_refused_witness :
  config_error (Ngram odd_bigrams)
  /\ config_error (Ngram decreasing_offsets).
Proof.
  split.
  - apply (X18_malformed_segment_is_refused odd_bigrams 1).
    exists 0, 3. split; [reflexivity |]. right. right. discriminate.
  - apply (X18_malformed_segment_is_refused decreasing_offsets 0).
    exists 2, 0. split; [reflexivity |]. left. lia.
Defined.

(* ===================================================================== *)
(** ** conv_impl.h: the fused activation *)
(* ===================================================================== *)

Section ActivationFacts.
Context {T : Type}.
Variable cwiseMax0 logistic one_minus array_tanh : T -> T.
Variable ge0 : T -> bool.
Variable scale : float -> T -> T.

Local Abbreviation fuse :=
  (Conv.fuse_activation cwiseMax0 logistic one_minus array_tanh ge0 scale).

Lemma assign_vec_frame (f : T -> T) (y_data y' : list T) (size : nat) :
  Conv.assign_vec f y_data size = Conv.Returned y' ->
  length y' = length y_data
  /\ (forall i, (size <= i)%nat -> y' !! i = y_data !! i)
  /\ (forall i v, (i < size)%nat -> y_data !! i = Some v ->
        y' !! i = Some (f v)).
Proof.
  unfold Conv.assign_vec.
  destruct (Nat.leb_spec size (length y_data)) as [Hle |]; [| discriminate].
  intros [= <-].
  assert (Hlen : length (map f (take size y_data)) = size).
  { rewrite length_map, length_take. lia. }
  split; [| split].
  - rewrite length_app, Hlen, length_drop. lia.
  - intros i Hi. rewrite lookup_app_r by lia. rewrite Hlen, lookup_drop.
    f_equal. lia.
  - intros i v Hi Hv. rewrite lookup_app_l by lia.
    change (map f (take size y_data)) with (f <$> take size y_data).
    rewrite list_lookup_fmap, lookup_take_lt by lia. now rewrite Hv.
Qed.

(** X20. The fused activation: with no activation name the buffer is
    returned as it is; a name other than Relu, Sigmoid, Tanh and
    LeakyRelu throws NotImplemented with the name in the message, and
    nothing is written; whenever the function returns, the buffer keeps
    its length and every element from position [size] on; LeakyRelu
    leaves the elements that are >= 0 as they are and scales the others
    by alpha. *)
Theorem X20_fuse_activation_frame
    (activation : string) (y_data : list T) (size : nat) (alpha : float) :
  (activation = "" -> fuse activation y_data size alpha = Conv.Returned y_data)
  /\ (activation <> "" -> activation <> "Relu" -> activation <> "Sigmoid" ->
      activation <> "Tanh" -> activation <> "LeakyRelu" ->
      fuse activation y_data size alpha
      = Conv.NotImplemented
          ("Not implemented fused activation: " ++ activation)%string)
  /\ (forall y',
      fuse activation y_data size alpha = Conv.Returned y' ->
      length y' = length y_data
      /\ forall i, (size <= i)%nat -> y' !! i = y_data !! i)
  /\ (forall y' i v,
      fuse "LeakyRelu" y_data size alpha = Conv.Returned y' ->
      (i < size)%nat ->
      y_data !! i = Some v ->
      y' !! i = Some (if ge0 v then v else scale alpha v)).
Proof.
  split; [| split; [| split]].
  - intros ->. reflexivity.
  - intros H0 H1 H2 H3 H4. unfold Conv.fuse_activation.
    apply String.eqb_neq in H0, H1, H2, H3, H4.
    now rewrite H0, H1, H2, H3, H4.
  - intros y'. unfold Conv.fuse_activation.
    destruct (String.eqb activation "").
    { intros [= <-]. auto. }
    repeat match goal with
           | |- context [String.eqb activation ?s] =>
               destruct (String.eqb activation s)
           end;
      try discriminate;
      intros H; apply assign_vec_frame in H; tauto.
  - intros y' i v H Hi Hv. unfold Conv.fuse_activation in H.
    cbn [String.eqb Ascii.eqb Bool.eqb] in H.
    apply assign_vec_frame in H. destruct H as (_ & _ & H).
    now apply H.
Qed.
End ActivationFacts.

Lemma X20_fuse_activation_frame_witness :
  Conv.fuse_activation (fun y : Z => Z.max y 0) (fun y => y) (fun y => y)
    (fun y => y) (fun y => 0 <=? y) (fun _ y => - y) "" [1; -2; 3] 2 float_two
  = Conv.Returned [1; -2; 3]
  /\ Conv.fuse_activation (fun y : Z => Z.max y 0) (fun y => y) (fun y => y)
       (fun y => y) (fun y => 0 <=? y) (fun _ y => - y) "relu" [1; -2; 3] 2
       float_two
     = Conv.NotImplemented "Not implemented fused activation: relu"
  /\ (length [1; 2; 3] = length [1; -2; 3]
      /\ forall i, (2 <= i)%nat -> [1; 2; 3] !! i = [1; -2; 3] !! i)
  /\ [1; 2; 3] !! 1%nat = Some (if 0 <=? -2 then -2 else - -2).
Proof.
  pose (X := X20_fuse_activation_frame (fun y : Z => Z.max y 0) (fun y => y)
               (fun y => y) (fun y => y) (fun y => 0 <=? y) (fun _ y => - y)).
  split; [| split; [| split]].
  - apply (proj1 (X "" [1; -2; 3] 2%nat float_two)). reflexivity.
  - apply (proj1 (proj2 (X "relu" [1; -2; 3] 2%nat float_two)));
      discriminate.
  - apply (proj1 (proj2 (proj2 (X "LeakyRelu" [1; -2; 3] 2%nat float_two)))
             [1; 2; 3]).
    reflexivity.
  - apply (proj2 (proj2 (proj2 (X "LeakyRelu" [1; -2; 3] 2%nat float_two)))
             [1; 2; 3] 1%nat (-2)).
    + reflexivity.
    + lia.
    + reflexivity.
Defined.

(* ===================================================================== *)
(** ** conv_impl.h: the kernel shape against the weights *)
(* ===================================================================== *)

Lemma kernel_dims_agree (kernel_shape W_dims : list Z) (remaining : nat) :
  forall i : nat,
    (i + remaining = length kernel_shape)%nat ->
    Conv.kernel_dims_differ kernel_shape W_dims remaining i = Some false ->
    forall j, (i <= j < length kernel_shape)%nat ->
              kernel_shape !! j = W_dims !! (j + 2)%nat.
Proof.
  induction remaining as [| r IH]; intros i Hlen Hrun j Hj; [lia |].
  cbn [Conv.kernel_dims_differ] in Hrun.
  destruct (kernel_shape !! i) as [k |] eqn:Hk; [| discriminate].
  destruct (W_dims !! (i + 2)%nat) as [w |] eqn:Hw; [| discriminate].
  destruct (Z.eqb_spec k w) as [-> | Hne]; cbn [negb] in Hrun;
    [| discriminate].
  destruct (Nat.eq_dec j i) as [-> | Hji]; [congruence |].
  apply (IH (S i)); auto; lia.
Qed.

Lemma kernel_dims_checked (kernel_shape W_dims : list Z) (remaining : nat) :
  length W_dims = (length kernel_shape + 2)%nat ->
  forall i : nat,
    (i + remaining = length kernel_shape)%nat ->
    Conv.kernel_dims_differ kernel_shape W_dims remaining i <> None.
Proof.
  intros HW. induction remaining as [| r IH]; intros i Hlen;
    cbn [Conv.kernel_dims_differ]; [discriminate |].
  destruct (lookup_lt_is_Some_2 kernel_shape i ltac:(lia)) as [k ->].
  destruct (lookup_lt_is_Some_2 W_dims (i + 2) ltac:(lia)) as [w ->].
  destruct (negb (k =? w)); [discriminate |]. apply IH. lia.
Qed.

Lemma kernel_shape_is_tail (kernel_shape W_dims : list Z) :
  length W_dims = (length kernel_shape + 2)%nat ->
  Conv.kernel_dims_differ kernel_shape W_dims (length kernel_shape) 0
  = Some false ->
  kernel_shape = drop 2 W_dims.
Proof.
  intros HW Hrun.
  apply (list_eq_same_length _ _ (length kernel_shape)); auto.
  - rewrite length_drop. lia.
  - intros j x y Hj Hx Hy. rewrite lookup_drop in Hy.
    rewrite (kernel_dims_agree kernel_shape W_dims (length kernel_shape)
               0%nat ltac:(lia) Hrun j ltac:(lia)) in Hx.
    replace (2 + j)%nat with (j + 2)%nat in Hy by lia. congruence.
Qed.

(** X21. The shape stage of the convolution goes on to the computation
    only with a kernel shape that is the shape of the weights without its
    first two dimensions: when the inputs validate, a kernel shape that
    differs from that tail, in rank or in any dimension, makes the call
    return a FAIL status. When the stage goes on, the batch size and the
    channel counts are the leading dimensions of X and W, and absent
    dilations and strides are all ones, one per kernel dimension. *)
Theorem X21_kernel_shape_is_the_tail_of_W
    (ValidateInputShape : list Z -> list Z -> Conv.Status)
    (ComputeKernelShape : list Z -> list Z)
    (InferOutputShape : list Z -> list Z -> list Z -> list Z -> list Z ->
                        list Z -> Conv.Status * list Z * list Z)
    (ToString : list Z -> string)
    (attrs : Conv.ConvAttributes) (X_dims W_dims : list Z) :
  (forall sh,
      Conv.Compute_shapes ValidateInputShape ComputeKernelShape
        InferOutputShape ToString attrs X_dims W_dims = Conv.Goes_on sh ->
      Conv.sh_kernel_shape sh = ComputeKernelShape W_dims
      /\ Conv.sh_kernel_shape sh = drop 2 W_dims
      /\ (2 <= length W_dims)%nat
      /\ X_dims !! 0%nat = Some (Conv.sh_N sh)
      /\ X_dims !! 1%nat = Some (Conv.sh_C sh)
      /\ W_dims !! 0%nat = Some (Conv.sh_M sh)
      /\ ValidateInputShape X_dims W_dims = Conv.Status_OK
      /\ (Conv.dilations_ attrs = [] ->
          Conv.sh_dilations sh = replicate (length W_dims - 2) 1)
      /\ (Conv.strides_ attrs = [] ->
          Conv.sh_strides sh = replicate (length W_dims - 2) 1))
  /\ ((2 <= length X_dims)%nat -> (1 <= length W_dims)%nat ->
      ValidateInputShape X_dims W_dims = Conv.Status_OK ->
      ComputeKernelShape W_dims <> drop 2 W_dims ->
      exists message,
        Conv.Compute_shapes ValidateInputShape ComputeKernelShape
          InferOutputShape ToString attrs X_dims W_dims
        = Conv.Returns (Conv.Status_failure "FAIL" message)).
Proof.
  unfold Conv.Compute_shapes. split.
  - intros sh.
    destruct (X_dims !! 0%nat) as [N |]; [| discriminate].
    destruct (X_dims !! 1%nat) as [C |]; [| discriminate].
    destruct (W_dims !! 0%nat) as [M |]; [| discriminate].
    destruct (ValidateInputShape X_dims W_dims); [| discriminate].
    destruct (Nat.eqb_spec (length (ComputeKernelShape W_dims) + 2)
                (length W_dims)) as [Hrank |]; cbn [negb]; [| discriminate].
    destruct (Conv.kernel_dims_differ _ _ _ _) as [[|] |] eqn:Hrun;
      try discriminate.
    destruct (InferOutputShape _ _ _ _ _ _) as [[[|] pads] Y_dims];
      [| discriminate].
    intros [= <-]. cbn.
    pose proof (kernel_shape_is_tail _ _ (eq_sym Hrank) Hrun) as Htail.
    repeat split; auto; try lia.
    + intros ->. unfold Conv.or_default. cbn [is_empty].
      f_equal. lia.
    + intros ->. unfold Conv.or_default. cbn [is_empty].
      f_equal. lia.
  - intros HX HW Hvalid Hks.
    destruct (lookup_lt_is_Some_2 X_dims 0 ltac:(lia)) as [N ->].
    destruct (lookup_lt_is_Some_2 X_dims 1 ltac:(lia)) as [C ->].
    destruct (lookup_lt_is_Some_2 W_dims 0 ltac:(lia)) as [M ->].
    rewrite Hvalid.
    destruct (Nat.eqb_spec (length (ComputeKernelShape W_dims) + 2)
                (length W_dims)) as [Hrank |]; cbn [negb];
      [| eexists; reflexivity].
    destruct (Conv.kernel_dims_differ _ _ _ _) as [[|] |] eqn:Hrun.
    + eexists. reflexivity.
    + exfalso. apply Hks. now apply kernel_shape_is_tail.
    + exfalso. revert Hrun.
      apply kernel_dims_checked; [lia | reflexivity].
Qed.

Lemma X21_kernel_shape_is_the_tail_of_W_witness :
  (Conv.sh_kernel_shape
     (Conv.mkShapes 1 4 6 [3; 3] [0; 0; 0; 0] [1; 1] [1; 1] [1; 6])
   = drop 2 [6; 4; 3; 3]
   /\ Conv.sh_kernel_shape
        (Conv.mkShapes 1 4 6 [3; 3] [0; 0; 0; 0] [1; 1] [1; 1] [1; 6])
      = drop 2 [6; 4; 3; 3]
   /\ (2 <= length [6; 4; 3; 3])%nat
   /\ [1; 4; 8; 8] !! 0%nat = Some 1
   /\ [1; 4; 8; 8] !! 1%nat = Some 4
   /\ [6; 4; 3; 3] !! 0%nat = Some 6
   /\ Conv.Status_OK = Conv.Status_OK
   /\ (@nil Z = [] ->
       [1; 1] = replicate (length [6; 4; 3; 3] - 2) 1)
   /\ (@nil Z = [] ->
       [1; 1] = replicate (length [6; 4; 3; 3] - 2) 1))
  /\ exists message,
       Conv.Compute_shapes (fun _ _ => Conv.Status_OK) (fun _ => [3; 5])
         (fun _ _ _ _ pads Y_dims => (Conv.Status_OK, pads, Y_dims))
         (fun _ => "") (Conv.mkConvAttributes [] [] [])
         [1; 4; 8; 8] [6; 4; 3; 3]
       = Conv.Returns (Conv.Status_failure "FAIL" message).
Proof.
  split.
  - apply (proj1 (X21_kernel_shape_is_the_tail_of_W
                    (fun _ _ => Conv.Status_OK) (drop 2)
                    (fun _ _ _ _ pads Y_dims => (Conv.Status_OK, pads, Y_dims))
                    (fun _ => "") (Conv.mkConvAttributes [] [] [])
                    [1; 4; 8; 8] [6; 4; 3; 3])
             (Conv.mkShapes 1 4 6 [3; 3] [0; 0; 0; 0] [1; 1] [1; 1] [1; 6])).
    reflexivity.
  - apply (proj2 (X21_kernel_shape_is_the_tail_of_W
                    (fun _ _ => Conv.Status_OK) (fun _ => [3; 5])
                    (fun _ _ _ _ pads Y_dims => (Conv.Status_OK, pads, Y_dims))
                    (fun _ => "") (Conv.mkConvAttributes [] [] [])
                    [1; 4; 8; 8] [6; 4; 3; 3])).
    + simpl. lia.
    + simpl. lia.
    + reflexivity.
    + discriminate.
Defined.

(* ===================================================================== *)
(** ** The order of the dictionary, its size and the size of the output *)
(* ===================================================================== *)

Lemma length_inv_app {T : Type} (ngram_size : nat)
    (c new : list (NGramItem T)) :
  length_inv ngram_size c ->
  Forall (fun e => length (items_ e) = ngram_size) new ->
  length_inv (S ngram_size) (c ++ new).
Proof.
  intros [Hsorted Hbelow] Hnew. rewrite Forall_forall in Hbelow, Hnew.
  split.
  - intros j k ej ek Hjk Hj Hk.
    apply lookup_app_Some in Hj, Hk.
    destruct Hj as [Hj | [Hjn Hj]], Hk as [Hk | [Hkn Hk]].
    + eapply Hsorted; eauto.
    + pose proof (Hbelow _ (list_elem_of_lookup_2 _ _ _ Hj)).
      pose proof (Hnew _ (list_elem_of_lookup_2 _ _ _ Hk)). lia.
    + apply lookup_lt_Some in Hk. lia.
    + pose proof (Hnew _ (list_elem_of_lookup_2 _ _ _ Hj)).
      pose proof (Hnew _ (list_elem_of_lookup_2 _ _ _ Hk)). lia.
  - apply Forall_app. split; apply Forall_forall; intros e He.
    + pose proof (Hbelow e He). lia.
    + pose proof (Hnew e He). lia.
Qed.

Lemma length_inv_next {T : Type} (ngram_size : nat) (c : list (NGramItem T)) :
  length_inv ngram_size c -> length_inv (S ngram_size) c.
Proof.
  intros H. rewrite <- (app_nil_r c). apply length_inv_app; [exact H |].
  constructor.
Qed.

Section BuildOrder.
Variable ngram_counts : list Z.
Variable pool_strings : list string.
Variable pool_int64s : list Z.

(** One passage through the loop appends, to each set, entries of
    [ngram_size] tokens, or nothing. *)
Lemma build_step_appends (i : nat) (st st' : build_state) :
  (1 <= b_ngram_size st)%nat ->
  build_step ngram_counts pool_strings pool_int64s i st = Ok st' ->
  b_ngram_size st' = S (b_ngram_size st)
  /\ (exists new,
        b_int_set st' = b_int_set st ++ new
        /\ Forall (fun e => length (items_ e) = b_ngram_size st) new)
  /\ (exists new,
        b_str_set st' = b_str_set st ++ new
        /\ Forall (fun e => length (items_ e) = b_ngram_size st) new).
Proof.
  intros Hsize. unfold build_step, pool_total_items.
  destruct (ngram_counts !! i) as [c |]; [| discriminate].
  set (start_idx := to_size_t c).
  pose proof (to_size_t_nonneg c) as Hstart. fold start_idx in Hstart.
  destruct (_ && _) eqn:Hbounds; cbn [ENFORCE bind]; [| discriminate].
  destruct (_ >? 0).
  2: { intros [= <-]. cbn [b_ngram_size b_int_set b_str_set].
       split; [reflexivity |].
       split; exists []; rewrite app_nil_r; split; auto; constructor. }
  destruct (_ mod _ =? 0) eqn:Hmod; cbn [ENFORCE bind]; [| discriminate].
  destruct (is_empty pool_strings) eqn:Hempty.
  - set (end_idx := match ngram_counts !! S i with
                    | Some c' => to_size_t c'
                    | None => _
                    end) in *.
    pose proof (whole_chunks_fit pool_int64s start_idx end_idx
                  (b_ngram_size st) Hsize Hstart Hbounds Hmod) as Hfit.
    pose proof (Emplace_all_new int_item_eq int_item_eq_spec
                  (drop (Z.to_nat start_idx) pool_int64s)
                  (Z.to_nat ((end_idx - start_idx) / Z.of_nat (b_ngram_size st)))
                  (b_ngram_size st) (b_ngram_id st) (b_int_set st)) as Hnew.
    destruct (Emplace int_item_eq _ _ _ _ _) as [ngram_id int_set].
    cbn [snd] in Hnew.
    destruct (Nat.eqb_spec
                (length (b_int_set st)
                 + Z.to_nat ((end_idx - start_idx) / Z.of_nat (b_ngram_size st)))
                (length int_set)) as [Hlen | Hlen];
      cbn [ENFORCE bind]; [| discriminate].
    intros [= <-]. cbn [b_ngram_size b_int_set b_str_set].
    split; [reflexivity |]. split.
    + eexists. split; [apply Hnew; lia |].
      now apply segment_entries_sizes.
    + exists []. rewrite app_nil_r. split; [reflexivity | constructor].
  - set (end_idx := match ngram_counts !! S i with
                    | Some c' => to_size_t c'
                    | None => _
                    end) in *.
    pose proof (whole_chunks_fit pool_strings start_idx end_idx
                  (b_ngram_size st) Hsize Hstart Hbounds Hmod) as Hfit.
    pose proof (Emplace_all_new str_item_eq str_item_eq_spec
                  (drop (Z.to_nat start_idx) pool_strings)
                  (Z.to_nat ((end_idx - start_idx) / Z.of_nat (b_ngram_size st)))
                  (b_ngram_size st) (b_ngram_id st) (b_str_set st)) as Hnew.
    destruct (Emplace str_item_eq _ _ _ _ _) as [ngram_id str_set].
    cbn [snd] in Hnew.
    destruct (Nat.eqb_spec
                (length (b_str_set st)
                 + Z.to_nat ((end_idx - start_idx) / Z.of_nat (b_ngram_size st)))
                (length str_set)) as [Hlen | Hlen];
      cbn [ENFORCE bind]; [| discriminate].
    intros [= <-]. cbn [b_ngram_size b_int_set b_str_set].
    split; [reflexivity |]. split.
    + exists []. rewrite app_nil_r. split; [reflexivity | constructor].
    + eexists. split; [apply Hnew; lia |].
      now apply segment_entries_sizes.
Qed.

Lemma build_from_order (remaining : nat) :
  forall (i : nat) (st st' : build_state),
    (1 <= b_ngram_size st)%nat ->
    length_inv (b_ngram_size st) (b_int_set st) ->
    length_inv (b_ngram_size st) (b_str_set st) ->
    build_from ngram_counts pool_strings pool_int64s remaining i st = Ok st' ->
    sorted_by_length (b_int_set st') /\ sorted_by_length (b_str_set st').
Proof.
  induction remaining as [| r IH]; intros i st st' Hsize Hi Hs;
    cbn [build_from].
  - intros [= <-]. split; [apply Hi | apply Hs].
  - destruct (build_step ngram_counts pool_strings pool_int64s i st)
      as [st1 |] eqn:Hstep; cbn [bind]; [| discriminate].
    destruct (build_step_appends i st st1 Hsize Hstep)
      as (Hsize1 & (ni & Hni & Hnilen) & (ns & Hns & Hnslen)).
    apply (IH (S i) st1 st'); rewrite ?Hsize1, ?Hni, ?Hns; try lia;
      now apply length_inv_app.
Qed.
End BuildOrder.

(** The sets of a constructed kernel hold their entries in the order of
    their number of tokens. *)
Lemma built_sets_sorted (info : OpKernelInfo) (impl : Impl) :
  Ngram info = Ok impl ->
  sorted_by_length (int_set_ impl) /\ sorted_by_length (str_set_ impl).
Proof.
  destruct info as [mode M N S all counts indexes weights ps pi].
  intros H. unfold Ngram in H.
  cbn [attr_mode attr_M attr_N attr_S attr_all attr_ngram_counts
       attr_ngram_indexes attr_weights attr_pool_strings attr_pool_int64s] in H.
  passed_all_checks H;
    (match type of H with
     | context [build_loop ?c ?s ?i] =>
         destruct (build_loop c s i) as [st |] eqn:Hloop; [| discriminate H]
     end);
    passed_all_checks H; injection H as <-; cbn [int_set_ str_set_];
    unfold build_loop in Hloop;
    (eapply build_from_order; [| | | exact Hloop]);
    cbn [b_ngram_size b_int_set b_str_set]; try lia;
    (split; [intros j k ej ek _ Hj; discriminate Hj | constructor]).
Qed.

Example unigrams_and_bigram_built :
  Ngram unigrams_and_bigram = Ok unigrams_and_bigram_impl.
Proof. reflexivity. Qed.

(** X22. In a constructed kernel the ids of the dictionary entries grow
    with the n-gram length: of two entries of a set, the one whose [id_]
    is smaller never has more tokens than the other, so every unigram
    has a smaller id than every bigram, and so on (within one length the
    ids go in pool order). For the integer set and the string set. *)
Theorem X22_ids_grow_with_length (info : OpKernelInfo) (impl : Impl) :
  Ngram info = Ok impl ->
  ids_ordered_by_length (int_set_ impl)
  /\ ids_ordered_by_length (str_set_ impl).
Proof.
  intros H. destruct (built_sets_sorted info impl H) as [Hi Hs].
  destruct (built_int_set info impl H) as (Hint & _).
  destruct (built_str_set info impl H) as (Hstr & _).
  split; intros ej ek Hj Hk Hid;
    apply list_elem_of_In, list_elem_of_lookup_1 in Hj;
    apply list_elem_of_In, list_elem_of_lookup_1 in Hk;
    destruct Hj as [j Hj]; destruct Hk as [k Hk].
  - rewrite (ids_are_positions _ _ _ _ Hint Hj),
      (ids_are_positions _ _ _ _ Hint Hk) in Hid.
    exact (Hi j k ej ek Hid Hj Hk).
  - rewrite (ids_are_positions _ _ _ _ Hstr Hj),
      (ids_are_positions _ _ _ _ Hstr Hk) in Hid.
    exact (Hs j k ej ek Hid Hj Hk).
Qed.

Lemma X22_ids_grow_with_length_witness :
  ids_ordered_by_length (int_set_ unigrams_and_bigram_impl)
  /\ ids_ordered_by_length (str_set_ unigrams_and_bigram_impl).
Proof.
  apply (X22_ids_grow_with_length unigrams_and_bigram unigrams_and_bigram_impl).
  reflexivity.
Defined.

(** X23. What the final check of the constructor compares. With an
    integer pool a kernel is returned only when the dictionary has one
    entry per output index. With a string pool the number compared with
    the output indexes is the number of pool tokens. *)
Theorem X23_size_check_of_the_constructor
    (info : OpKernelInfo) (impl : Impl) :
  Ngram info = Ok impl ->
  (attr_pool_strings info = None ->
   length (int_set_ impl) = length (ngram_indexes_ impl)
   /\ GetPoolSize token_int64 impl = length (ngram_indexes_ impl)
   /\ GetPoolSize token_int32 impl = length (ngram_indexes_ impl))
  /\ (forall pool,
      attr_pool_strings info = Some pool ->
      pool_strings_ impl = pool
      /\ length pool = length (ngram_indexes_ impl)).
Proof.
  intros H. split.
  - intros Hpool.
    pose proof (Ngram_int_pool_size info impl Hpool H) as Hsize.
    repeat split; exact Hsize.
  - intros pool Hpool. exact (Ngram_string_pool_size info impl pool Hpool H).
Qed.

Lemma X23_size_check_of_the_constructor_witness :
  (length (int_set_ unigrams_567_impl)
   = length (ngram_indexes_ unigrams_567_impl)
   /\ GetPoolSize token_int64 unigrams_567_impl
      = length (ngram_indexes_ unigrams_567_impl)
   /\ GetPoolSize token_int32 unigrams_567_impl
      = length (ngram_indexes_ unigrams_567_impl))
  /\ (pool_strings_ string_bigram_ab_impl = ["a"; "b"]
      /\ length ["a"; "b"] = length (ngram_indexes_ string_bigram_ab_impl)).
Proof.
  split.
  - apply (proj1 (X23_size_check_of_the_constructor unigrams_567
                    unigrams_567_impl eq_refl)).
    reflexivity.
  - apply (proj2 (X23_size_check_of_the_constructor (string_bigram_ab [0; 1])
                    string_bigram_ab_impl eq_refl) ["a"; "b"]).
    reflexivity.
Defined.

(** X24. A call that returns wrote one float per dictionary entry of the
    token type: the output shape is [GetPoolSize<T>()], whatever the
    output indexes are. *)
Theorem X24_output_has_one_float_per_entry
    {T K : Type} (token : TokenType T K) (impl : Impl) (input : list T)
    (ctx ctx' : OpKernelContext) :
  1 <= (if all_ impl then M_ impl else N_ impl) ->
  ComputeImpl token impl input (size input) ctx = Ok ctx' ->
  exists output_data,
    Output0 ctx' = Some ([Z.of_nat (GetPoolSize token impl)], output_data)
    /\ length output_data = GetPoolSize token impl.
Proof. apply ComputeImpl_output_length. Qed.

Lemma X24_output_has_one_float_per_entry_witness :
  exists output_data,
    Output0 (mkCtx (tensor_of (Int64Data [6]) 1) (Some ([1], [float_zero])))
    = Some ([Z.of_nat (GetPoolSize token_int64 unigram_5_slot_2_impl)],
            output_data)
    /\ length output_data = GetPoolSize token_int64 unigram_5_slot_2_impl.
Proof.
  apply (X24_output_has_one_float_per_entry token_int64 unigram_5_slot_2_impl
           [6] (mkCtx (tensor_of (Int64Data [6]) 1) None)).
  - simpl. lia.
  - reflexivity.
Defined.

(** X25. The skip count has no part in what the constructor accepts: the
    same attributes with any two skip counts are both accepted or both
    refused. *)
Theorem X25_constructor_ignores_the_skip_count
    (info : OpKernelInfo) (S S' : Z) :
  is_ok (Ngram (with_S info (Some S))) = is_ok (Ngram (with_S info (Some S'))).
Proof. apply Ngram_ignores_S. Qed.
